(** * Replay utilities of keploy: noise merging, host rewriting, request emulation

    A shallow embedding of [pkg/service/replay/utils.go].  Go maps are
    reference values, so the embedding keeps an explicit store of map objects
    and threads it through the functions that write to maps. *)

From stdpp Require Import gmap strings list fin_maps.
From Stdlib Require Import Ascii String.

Local Open Scope string_scope.

(** ** Go maps as objects in a store *)

Module gomap.

(** Address of a map object. *)
Abbreviation loc := positive (only parsing).

(** A value of type [map[string][]string]: [None] is the nil map. *)
Abbreviation fieldmap_ref := (option positive) (only parsing).

(** The store: the objects behind values of type
    [map[string]map[string][]string] and [map[string][]string].  A slice of
    patterns is kept as the list of its elements: no function of the file
    writes through a slice. *)
Record heap : Type := Heap {
  outers : gmap positive (gmap string (option positive));
  inners : gmap positive (gmap string (list string))
}.

(** Outcome of running a function: a normal return with a value, or a panic
    carrying the runtime error's text.  Either way the store is observable
    afterwards. *)
Inductive outcome (A : Type) : Type :=
| Returned (a : A) (h : heap)
| Panicked (msg : string) (h : heap).
Arguments Returned {A} a h.
Arguments Panicked {A} msg h.

Definition go (A : Type) : Type := heap → outcome A.

Definition ret {A} (a : A) : go A := λ h, Returned a h.

Definition bind {A B} (m : go A) (k : A → go B) : go B := λ h,
  match m h with
  | Returned a h' => k a h'
  | Panicked msg h' => Panicked msg h'
  end.

Definition panic {A} (msg : string) : go A := λ h, Panicked msg h.

(** The entries of the object behind a [map[string][]string] value.  Reading
    the nil map reads an empty map. *)
Definition object (r : option positive)
    (objs : gmap positive (gmap string (list string))) : gmap string (list string) :=
  default ∅ (r ≫= λ l, objs !! l).

Definition entries (r : option positive) (h : heap) : gmap string (list string) :=
  object r (inners h).

(** [m[k]] for [m] of type [map[string]map[string][]string]: the zero value
    (the nil map) when [m] is nil or has no key [k]. *)
Definition index (g : option positive) (k : string) (h : heap) : option positive :=
  g ≫= λ l, outers h !! l ≫= λ m, mjoin (m !! k).

(** The expression [m[k]] evaluated in the current store. *)
Definition mapaccess (g : option positive) (k : string) : go (option positive) :=
  λ h, Returned (index g k h) h.

Definition store_inner (l : positive) (m : gmap string (list string)) (h : heap) : heap :=
  Heap (outers h) (<[l := m]> (inners h)).

(** [m[k] = v] for [m] of type [map[string][]string]. *)
Definition mapassign (r : option positive) (k : string) (v : list string) : go unit :=
  match r with
  | None => panic "assignment to entry in nil map"
  | Some l => λ h, Returned tt (store_inner l (<[k := v]> (entries r h)) h)
  end.

(** [for k, v := range kvs { body }] on the entries the loop visits. *)
Fixpoint for_each (kvs : list (string * list string))
    (body : string → list string → go unit) : go unit :=
  match kvs with
  | [] => ret tt
  | (k, v) :: rest => bind (body k v) (λ _, for_each rest body)
  end.

(** [for k, v := range m { body }].  The loops of this file only assign
    [m[k] = v] for entries [(k, v)] of the map they range over, so when the
    target is the ranged map itself the assignments change nothing, and
    otherwise the ranged map is not written during the loop: the loop visits
    the entries the map had on entry. *)
Definition range (r : option positive)
    (body : string → list string → go unit) : go unit := λ h,
  for_each (map_to_list (entries r h)) body h.

End gomap.

Import gomap.

#[export] Instance go_ret : MRet go := @ret.
#[export] Instance go_bind : MBind go := λ A B k m, bind m k.

(** ** config.GlobalNoise and LeftJoinNoise *)

(** [config.GlobalNoise] is [map[string]map[string][]string]; a value of
    that type is nil or the address of a map object. *)
Abbreviation GlobalNoise := (option positive) (only parsing).

Definition LeftJoinNoise (globalNoise tsNoise : GlobalNoise) : go GlobalNoise :=
  let noise := globalNoise in
  src ← mapaccess tsNoise "body";
  range src (λ field regexArr,
    dst ← mapaccess noise "body"; mapassign dst field regexArr);;
  src ← mapaccess tsNoise "header";
  range src (λ field regexArr,
    dst ← mapaccess noise "header"; mapassign dst field regexArr);;
  mret noise.

(** The bindings of one scope of a noise map, as a caller reads them. *)
Definition scope (g : GlobalNoise) (s : string) (h : heap) : gmap string (list string) :=
  entries (index g s h) h.

(** What one loop of [LeftJoinNoise] does to the map objects: nothing when
    the override's map [src] has no field, no result (the loop panics) when
    it has one and the base has no map [dst] for the scope, and otherwise the
    override's bindings are written over the base's own map object. *)
Definition join_objects (src dst : option positive)
    (objs : gmap positive (gmap string (list string)))
    : option (gmap positive (gmap string (list string))) :=
  if decide (object src objs = ∅) then Some objs
  else match dst with
       | None => None
       | Some l => Some (<[l := object src objs ∪ object dst objs]> objs)
       end.

Definition join_scope (s : string) (noise tsNoise : GlobalNoise) (h : heap) : outcome unit :=
  match join_objects (index tsNoise s h) (index noise s h) (inners h) with
  | Some objs => Returned tt (Heap (outers h) objs)
  | None => Panicked "assignment to entry in nil map" h
  end.

(** The map an object holds after the assignments [m[k] = v] for the entries
    [kvs], in the order given. *)
Definition assign_all (m : gmap string (list string))
    (kvs : list (string * list string)) : gmap string (list string) :=
  foldl (λ acc kv, <[kv.1 := kv.2]> acc) m kvs.

(** The loop body of [LeftJoinNoise] for scope [s]. *)
Definition assign_in (noise : GlobalNoise) (s : string) : string → list string → go unit :=
  λ field regexArr, dst ← mapaccess noise s; mapassign dst field regexArr.

(** ** Go strings

    A Go string is a sequence of bytes; [string] is a sequence of [ascii]
    bytes.  An index that Go reports as [-1] when nothing is found is
    [None] here. *)

Module strings.

Fixpoint take (n : nat) (s : string) : string :=
  match n, s with
  | S n', String c s' => String c (take n' s')
  | _, _ => ""
  end.

Fixpoint drop (n : nat) (s : string) : string :=
  match n, s with
  | S n', String _ s' => drop n' s'
  | _, _ => s
  end.

(** [strings.HasPrefix(s, prefix)] *)
Fixpoint HasPrefix (s prefix : string) : bool :=
  match prefix, s with
  | "", _ => true
  | String p prefix', String c s' => if decide (c = p) then HasPrefix s' prefix' else false
  | String _ _, "" => false
  end.

(** [strings.HasSuffix(s, suffix)] *)
Definition HasSuffix (s suffix : string) : bool :=
  bool_decide (drop (String.length s - String.length suffix) s = suffix).

(** [strings.Index(s, substr)] *)
Fixpoint Index (s substr : string) : option nat :=
  if HasPrefix s substr then Some 0
  else match s with
       | "" => None
       | String _ s' => S <$> Index s' substr
       end.

(** [strings.LastIndex(s, substr)] *)
Fixpoint LastIndex (s substr : string) : option nat :=
  match s with
  | "" => if HasPrefix s substr then Some 0 else None
  | String _ s' =>
      match LastIndex s' substr with
      | Some i => Some (S i)
      | None => if HasPrefix s substr then Some 0 else None
      end
  end.

(** [strings.Contains(s, substr)] *)
Definition Contains (s substr : string) : bool := bool_decide (is_Some (Index s substr)).

(** [strings.Cut(s, sep)] *)
Definition Cut (s sep : string) : string * string * bool :=
  match Index s sep with
  | Some i => (take i s, drop (i + String.length sep) s, true)
  | None => (s, "", false)
  end.

(** [strings.Count(s, substr)] for a one-byte [substr]. *)
Fixpoint CountByte (s : string) (c : ascii) : nat :=
  match s with
  | "" => 0
  | String c' s' => (if decide (c' = c) then 1 else 0) + CountByte s' c
  end.

(** [strings.Replace(s, old, new, 1)]: [s] when [old] and [new] are equal or
    [old] does not occur; otherwise the first occurrence of [old] (the start
    of [s] when [old] is empty) is replaced by [new]. *)
Definition Replace_1 (s old new : string) : string :=
  if decide (old = new) then s
  else match Index s old with
       | None => s
       | Some j => take j s +:+ new +:+ drop (j + String.length old) s
       end.

Definition byte_in (lo hi c : ascii) : bool :=
  (N_of_ascii lo <=? N_of_ascii c)%N && (N_of_ascii c <=? N_of_ascii hi)%N.

(** [strings.ToLower(s)] on the ASCII letters; [net/url] applies it to a
    scheme, which holds ASCII letters, digits and [+-.] only. *)
Fixpoint ToLower (s : string) : string :=
  match s with
  | "" => ""
  | String c s' =>
      String (if byte_in "A" "Z" c then ascii_of_N (N_of_ascii c + 32) else c) (ToLower s')
  end.

End strings.

(** ** Go errors *)

(** The error values the functions of this file return.  [errorString] is
    what [errors.New] and [fmt.Errorf] (without a wrapping verb) build;
    the other constructors are the error types of [net/url]. *)
Inductive error : Type :=
| errorString (s : string)
| EscapeError (s : string)
| InvalidHostError (s : string)
| invalidPort (colonPort : string)       (* fmt.Errorf("invalid port %q after host", colonPort) *)
| URLError (Op URL : string) (Err : error).  (* a url.Error *)

#[export] Instance error_eq_dec : EqDecision error.
Proof. solve_decision. Defined.

(** ** net/url

    [url.Parse], [URL.Hostname] and [URL.String] of the Go standard
    library (as of Go 1.21), which [replaceHostToIP] calls. *)

Module url.
Import strings.

Record Userinfo : Type := mkUserinfo {
  username : string;
  password : string;
  passwordSet : bool
}.

Record URL : Type := mkURL {
  Scheme : string;
  Opaque : string;
  User : option Userinfo;
  Host : string;
  Path : string;
  RawPath : string;
  OmitHost : bool;
  ForceQuery : bool;
  RawQuery : string;
  Fragment : string;
  RawFragment : string
}.

#[export] Instance Userinfo_eq_dec : EqDecision Userinfo.
Proof. solve_decision. Defined.
#[export] Instance URL_eq_dec : EqDecision URL.
Proof. solve_decision. Defined.

Definition empty : URL := mkURL "" "" None "" "" "" false false "" "" "".

Definition set_Host (h : string) (u : URL) : URL :=
  mkURL (Scheme u) (Opaque u) (User u) h (Path u) (RawPath u)
        (OmitHost u) (ForceQuery u) (RawQuery u) (Fragment u) (RawFragment u).

Inductive encoding : Type :=
| encodePath | encodePathSegment | encodeHost | encodeZone
| encodeUserPassword | encodeQueryComponent | encodeFragment.

#[export] Instance encoding_eq_dec : EqDecision encoding.
Proof. solve_decision. Defined.

Definition one_of (c : ascii) (cs : string) : bool :=
  bool_decide (c ∈ list_ascii_of_string cs).

Definition dquote : ascii := ascii_of_nat 34.

Definition isalnum (c : ascii) : bool :=
  byte_in "a" "z" c || byte_in "A" "Z" c || byte_in "0" "9" c.

Definition ishex (c : ascii) : bool :=
  byte_in "0" "9" c || byte_in "a" "f" c || byte_in "A" "F" c.

Definition unhex (c : ascii) : N :=
  if byte_in "0" "9" c then N_of_ascii c - N_of_ascii "0"
  else if byte_in "a" "f" c then N_of_ascii c - N_of_ascii "a" + 10
  else if byte_in "A" "F" c then N_of_ascii c - N_of_ascii "A" + 10
  else 0.

Definition upperhex (n : N) : ascii :=
  if (n <? 10)%N then ascii_of_N (N_of_ascii "0" + n)
  else ascii_of_N (N_of_ascii "A" + (n - 10)).

Definition shouldEscape (c : ascii) (mode : encoding) : bool :=
  if isalnum c then false
  else if bool_decide (mode = encodeHost ∨ mode = encodeZone)
          && (one_of c "!$&'()*+,;=:[]<>" || bool_decide (c = dquote)) then false
  else if one_of c "-_.~" then false
  else if one_of c "$&+,/:;=?@" then
    match mode with
    | encodePath => bool_decide (c = "?"%char)
    | encodePathSegment => one_of c "/;,?"
    | encodeUserPassword => one_of c "@/?:"
    | encodeQueryComponent => true
    | encodeFragment => false
    | encodeHost | encodeZone => true
    end
  else if bool_decide (mode = encodeFragment) && one_of c "!()*" then false
  else true.

(** The first pass of [unescape]: the escapes are well formed and the bytes
    are allowed in [mode]. *)
Fixpoint unescape_check (s : string) (mode : encoding) : option error :=
  match s with
  | "" => None
  | String "%" rest =>
      match rest with
      | String a (String b rest') =>
          if negb (ishex a && ishex b) then Some (EscapeError (take 3 s))
          else if bool_decide (mode = encodeHost) && (unhex a <? 8)%N
                  && negb (bool_decide (take 3 s = "%25"))
          then Some (EscapeError (take 3 s))
          else if bool_decide (mode = encodeZone)
                  && negb (bool_decide (take 3 s = "%25"))
                  && negb (bool_decide (ascii_of_N (unhex a * 16 + unhex b) = " "%char))
                  && shouldEscape (ascii_of_N (unhex a * 16 + unhex b)) encodeHost
          then Some (EscapeError (take 3 s))
          else unescape_check rest' mode
      | _ => Some (EscapeError (take 3 s))
      end
  | String c rest =>
      if bool_decide (c = "+"%char) then unescape_check rest mode
      else if bool_decide (mode = encodeHost ∨ mode = encodeZone)
              && (N_of_ascii c <? 128)%N && shouldEscape c encodeHost
      then Some (InvalidHostError (String c ""))
      else unescape_check rest mode
  end.

(** The second pass of [unescape], on a string that passed the first. *)
Fixpoint unescape_bytes (s : string) (mode : encoding) : string :=
  match s with
  | "" => ""
  | String "%" (String a (String b rest)) =>
      String (ascii_of_N (unhex a * 16 + unhex b)) (unescape_bytes rest mode)
  | String c rest =>
      String (if bool_decide (c = "+"%char) && bool_decide (mode = encodeQueryComponent)
              then " "%char else c)
             (unescape_bytes rest mode)
  end.

Definition unescape (s : string) (mode : encoding) : string + error :=
  match unescape_check s mode with
  | Some err => inr err
  | None => inl (unescape_bytes s mode)
  end.

Fixpoint escape (s : string) (mode : encoding) : string :=
  match s with
  | "" => ""
  | String c rest =>
      if bool_decide (c = " "%char) && bool_decide (mode = encodeQueryComponent)
      then String "+" (escape rest mode)
      else if shouldEscape c mode
      then String "%" (String (upperhex (N.shiftr (N_of_ascii c) 4))
                        (String (upperhex (N.land (N_of_ascii c) 15)) (escape rest mode)))
      else String c (escape rest mode)
  end.

Fixpoint validEncoded (s : string) (mode : encoding) : bool :=
  match s with
  | "" => true
  | String c rest =>
      (one_of c "!$&'()*+,;=:@[]%" || negb (shouldEscape c mode)) && validEncoded rest mode
  end.

Fixpoint stringContainsCTLByte (s : string) : bool :=
  match s with
  | "" => false
  | String b rest =>
      (N_of_ascii b <? N_of_ascii " ")%N || bool_decide (N_of_ascii b = 127%N)
      || stringContainsCTLByte rest
  end.

(** [getScheme]: the scan of [rawURL] from byte [i] on; [seen] holds the
    bytes before [i], in reverse. *)
Fixpoint getScheme_from (rawURL : string) (seen : string) (rest : string)
    : (string * string) + error :=
  match rest with
  | "" => inl ("", rawURL)
  | String c rest' =>
      if byte_in "a" "z" c || byte_in "A" "Z" c
      then getScheme_from rawURL (seen +:+ String c "") rest'
      else if byte_in "0" "9" c || one_of c "+-."
      then if bool_decide (seen = "") then inl ("", rawURL)
           else getScheme_from rawURL (seen +:+ String c "") rest'
      else if bool_decide (c = ":"%char)
      then if bool_decide (seen = "") then inr (errorString "missing protocol scheme")
           else inl (seen, rest')
      else inl ("", rawURL)
  end.

Definition getScheme (rawURL : string) : (string * string) + error :=
  getScheme_from rawURL "" rawURL.

Fixpoint all_digits (s : string) : bool :=
  match s with
  | "" => true
  | String b rest => byte_in "0" "9" b && all_digits rest
  end.

Definition validOptionalPort (port : string) : bool :=
  match port with
  | "" => true
  | String c rest => bool_decide (c = ":"%char) && all_digits rest
  end.

Definition parseHost (host : string) : string + error :=
  let plain := unescape host encodeHost in
  if HasPrefix host "[" then
    match LastIndex host "]" with
    | None => inr (errorString "missing ']' in host")
    | Some i =>
        let colonPort := drop (i + 1) host in
        if negb (validOptionalPort colonPort) then inr (invalidPort colonPort)
        else match Index (take i host) "%25" with
             | Some zone =>
                 match unescape (take zone host) encodeHost with
                 | inr err => inr err
                 | inl host1 =>
                     match unescape (take (i - zone) (drop zone host)) encodeZone with
                     | inr err => inr err
                     | inl host2 =>
                         match unescape (drop i host) encodeHost with
                         | inr err => inr err
                         | inl host3 => inl (host1 +:+ host2 +:+ host3)
                         end
                     end
                 end
             | None => plain
             end
    end
  else
    match LastIndex host ":" with
    | Some i =>
        let colonPort := drop i host in
        if negb (validOptionalPort colonPort) then inr (invalidPort colonPort)
        else plain
    | None => plain
    end.

Fixpoint validUserinfo (s : string) : bool :=
  match s with
  | "" => true
  | String r rest => (isalnum r || one_of r "-._:~!$&'()*+,;=%@") && validUserinfo rest
  end.

Definition parseAuthority (authority : string) : (option Userinfo * string) + error :=
  let i := LastIndex authority "@" in
  match parseHost (match i with None => authority | Some i => drop (i + 1) authority end) with
  | inr err => inr err
  | inl host =>
      match i with
      | None => inl (None, host)
      | Some i =>
          let userinfo := take i authority in
          if negb (validUserinfo userinfo) then inr (errorString "net/url: invalid userinfo")
          else if negb (Contains userinfo ":") then
            match unescape userinfo encodeUserPassword with
            | inr err => inr err
            | inl userinfo => inl (Some (mkUserinfo userinfo "" false), host)
            end
          else
            let '(username, password, _) := Cut userinfo ":" in
            match unescape username encodeUserPassword with
            | inr err => inr err
            | inl username =>
                match unescape password encodeUserPassword with
                | inr err => inr err
                | inl password => inl (Some (mkUserinfo username password true), host)
                end
            end
      end
  end.

(** [URL.setPath]: the fields [Path] and [RawPath]. *)
Definition setPath (p : string) : (string * string) + error :=
  match unescape p encodePath with
  | inr err => inr err
  | inl path => inl (path, if bool_decide (p = escape path encodePath) then "" else p)
  end.

(** [URL.setFragment]: the fields [Fragment] and [RawFragment]. *)
Definition setFragment (f : string) : (string * string) + error :=
  match unescape f encodeFragment with
  | inr err => inr err
  | inl frag => inl (frag, if bool_decide (f = escape frag encodeFragment) then "" else f)
  end.

(** [parse(rawURL, viaRequest)] for [viaRequest = false], as [Parse] calls it. *)
Definition parse (rawURL : string) : URL + error :=
  if stringContainsCTLByte rawURL
  then inr (errorString "net/url: invalid control character in URL")
  else if bool_decide (rawURL = "*")
  then inl (mkURL "" "" None "" "*" "" false false "" "" "")
  else
    match getScheme rawURL with
    | inr err => inr err
    | inl (scheme, rest) =>
        let scheme := ToLower scheme in
        let '(rest, rawQuery, forceQuery) :=
          if HasSuffix rest "?" && bool_decide (CountByte rest "?" = 1)
          then (take (String.length rest - 1) rest, "", true)
          else let '(before, after, _) := Cut rest "?" in (before, after, false) in
        if negb (HasPrefix rest "/") && negb (bool_decide (scheme = ""))
        then inl (mkURL scheme rest None "" "" "" false forceQuery rawQuery "" "")
        else if negb (HasPrefix rest "/") && Contains (Cut rest "/").1.1 ":"
        then inr (errorString "first path segment in URL cannot contain colon")
        else
          let authority_rest :=
            if (negb (bool_decide (scheme = "")) || negb (HasPrefix rest "///"))
               && HasPrefix rest "//"
            then
              let authority := drop 2 rest in
              let '(authority, rest) :=
                match Index authority "/" with
                | Some i => (take i authority, drop i authority)
                | None => (authority, "")
                end in
              match parseAuthority authority with
              | inr err => inr err
              | inl (user, host) => inl (user, host, false, rest)
              end
            else if negb (bool_decide (scheme = "")) && HasPrefix rest "/"
            then inl (None, "", true, rest)
            else inl (None, "", false, rest) in
          match authority_rest with
          | inr err => inr err
          | inl (user, host, omitHost, rest) =>
              match setPath rest with
              | inr err => inr err
              | inl (path, rawPath) =>
                  inl (mkURL scheme "" user host path rawPath omitHost forceQuery
                             rawQuery "" "")
              end
          end
    end.

(** [url.Parse(rawURL)] *)
Definition Parse (rawURL : string) : URL + error :=
  let '(u, frag, _) := Cut rawURL "#" in
  match parse u with
  | inr err => inr (URLError "parse" u err)
  | inl url =>
      if bool_decide (frag = "") then inl url
      else match setFragment frag with
           | inr err => inr (URLError "parse" rawURL err)
           | inl (fragment, rawFragment) =>
               inl (mkURL (Scheme url) (Opaque url) (User url) (Host url) (Path url)
                          (RawPath url) (OmitHost url) (ForceQuery url) (RawQuery url)
                          fragment rawFragment)
           end
  end.

(** [splitHostPort(hostPort)] *)
Definition splitHostPort (hostPort : string) : string * string :=
  let '(host, port) :=
    match LastIndex hostPort ":" with
    | Some colon =>
        if validOptionalPort (drop colon hostPort)
        then (take colon hostPort, drop (colon + 1) hostPort)
        else (hostPort, "")
    | None => (hostPort, "")
    end in
  (if HasPrefix host "[" && HasSuffix host "]"
   then take (String.length host - 2) (drop 1 host) else host,
   port).

(** [URL.Hostname()] *)
Definition Hostname (u : URL) : string := (splitHostPort (Host u)).1.

(** [URL.Port()] *)
Definition Port (u : URL) : string := (splitHostPort (Host u)).2.

(** [Userinfo.String()] on a non-nil receiver. *)
Definition Userinfo_String (ui : Userinfo) : string :=
  escape (username ui) encodeUserPassword
  +:+ (if passwordSet ui then ":" +:+ escape (password ui) encodeUserPassword else "").

(** [URL.EscapedPath()] *)
Definition EscapedPath (u : URL) : string :=
  if negb (bool_decide (RawPath u = "")) && validEncoded (RawPath u) encodePath
     && bool_decide (unescape (RawPath u) encodePath = inl (Path u))
  then RawPath u
  else if bool_decide (Path u = "*") then "*"
  else escape (Path u) encodePath.

(** [URL.EscapedFragment()] *)
Definition EscapedFragment (u : URL) : string :=
  if negb (bool_decide (RawFragment u = "")) && validEncoded (RawFragment u) encodeFragment
     && bool_decide (unescape (RawFragment u) encodeFragment = inl (Fragment u))
  then RawFragment u
  else escape (Fragment u) encodeFragment.

(** [URL.String()] *)
Definition String (u : URL) : string :=
  let buf := if bool_decide (Scheme u = "") then "" else Scheme u +:+ ":" in
  let buf :=
    if negb (bool_decide (Opaque u = "")) then buf +:+ Opaque u
    else
      let buf :=
        if negb (bool_decide (Scheme u = "")) || negb (bool_decide (Host u = ""))
           || bool_decide (is_Some (User u))
        then
          if OmitHost u && bool_decide (Host u = "") && bool_decide (User u = None)
          then buf
          else
            let buf :=
              if negb (bool_decide (Host u = "")) || negb (bool_decide (Path u = ""))
                 || bool_decide (is_Some (User u))
              then buf +:+ "//" else buf in
            let buf :=
              match User u with
              | Some ui => buf +:+ Userinfo_String ui +:+ "@"
              | None => buf
              end in
            if negb (bool_decide (Host u = "")) then buf +:+ escape (Host u) encodeHost
            else buf
        else buf in
      let path := EscapedPath u in
      let buf :=
        if negb (bool_decide (path = "")) && negb (HasPrefix path "/")
           && negb (bool_decide (Host u = ""))
        then buf +:+ "/" else buf in
      let buf :=
        if bool_decide (buf = "") && Contains (Cut path "/").1.1 ":"
        then buf +:+ "./" else buf in
      buf +:+ path in
  let buf :=
    if ForceQuery u || negb (bool_decide (RawQuery u = ""))
    then buf +:+ "?" +:+ RawQuery u else buf in
  if negb (bool_decide (Fragment u = "")) then buf +:+ "#" +:+ EscapedFragment u else buf.

(** What [URL.String] writes around the host.  For a URL with a host and
    no opaque part it writes [before_host], the escaped host and
    [after_host]; for a URL with an opaque part it writes [scheme_colon],
    the opaque part and [query_fragment].  None of the four reads the
    field [Host]. *)
Definition scheme_colon (u : URL) : string :=
  if bool_decide (Scheme u = "") then "" else Scheme u +:+ ":".

Definition query_fragment (u : URL) : string :=
  (if ForceQuery u || negb (bool_decide (RawQuery u = "")) then "?" +:+ RawQuery u else "")
  +:+ (if negb (bool_decide (Fragment u = "")) then "#" +:+ EscapedFragment u else "").

Definition before_host (u : URL) : string :=
  scheme_colon u +:+ "//"
  +:+ match User u with
      | Some ui => Userinfo_String ui +:+ "@"
      | None => ""
      end.

Definition after_host (u : URL) : string :=
  let path := EscapedPath u in
  (if negb (bool_decide (path = "")) && negb (HasPrefix path "/") then "/" else "")
  +:+ path +:+ query_fragment u.

End url.

(** ** replaceHostToIP *)

(** The error [replaceHostToIP] builds with [fmt.Errorf] when it is given no
    address. *)
Definition missing_host_error : error :=
  errorString "failed to replace url in case of docker env".

(** The result pair [(string, error)]; [None] is the nil error. *)
Definition replaceHostToIP (currentURL ipAddress : string) : string * option error :=
  match url.Parse currentURL with
  | inr err => (currentURL, Some err)
  | inl parsedURL =>
      if bool_decide (ipAddress = "") then (currentURL, Some missing_host_error)
      else
        let parsedURL :=
          url.set_Host
            (strings.Replace_1 (url.Host parsedURL) (url.Hostname parsedURL) ipAddress)
            parsedURL in
        (url.String parsedURL, None)
  end.

(** ** The request emulator *)

Module models.

(** Modelled from the spec: the captured request of a test case (package
    [models] is not part of this file): method, URL, headers and body. *)
Record HTTPReq_t : Type := mkHTTPReq {
  Method : string;
  URL : string;
  Header : gmap string (list string);
  Body : string
}.

(** Modelled from the spec: a test case is a captured request with a
    protocol kind tag ([type Kind string]) and an identifying name. *)
Record TestCase : Type := mkTestCase {
  Kind : string;
  Name : string;
  HTTPReq : HTTPReq_t
}.

(** Modelled from the spec: the observed reply, with status, headers and
    body. *)
Record HTTPResp : Type := mkHTTPResp {
  StatusCode : Z;
  RespHeader : gmap string (list string);
  RespBody : string
}.

End models.

Section emulator.
Import models.

(** [context.Context] and [*zap.Logger] are opaque to this file, and so is
    the value of the constant [models.HTTP]. *)
Variables (Context Logger : Type) (HTTP : string).

(** The fields passed to the logger: [zap.Any] of a test case or of a
    string. *)
Inductive field : Type :=
| AnyTestCase (key : string) (tc : TestCase)
| AnyString (key : string) (s : string).

(** What [SimulateRequest] asks of its collaborators: a debug line on a
    logger, and [pkg.SimulateHTTP(ctx, tc, testSetID, logger, apiTimeout)],
    which sends the request and answers with the reply. *)
Inductive effect : Type → Type :=
| Debug (lg : Logger) (msg : string) (fields : list field) : effect unit
| SimulateHTTP (ctx : Context) (tc : TestCase) (testSetID : string)
    (lg : Logger) (apiTimeout : Z) : effect (option HTTPResp * option error).

Inductive prog (A : Type) : Type :=
| Done (a : A)
| Do {X : Type} (e : effect X) (k : X → prog A).
Arguments Done {A} a.
Arguments Do {A X} e k.

Fixpoint prog_bind {A B} (p : prog A) (f : A → prog B) : prog B :=
  match p with
  | Done a => f a
  | Do e k => Do e (λ x, prog_bind (k x) f)
  end.

Definition perform {X} (e : effect X) : prog X := Do e Done.

#[local] Instance prog_ret : MRet prog := @Done.
#[local] Instance prog_mbind : MBind prog := λ A B f p, prog_bind p f.

Record testUtils : Type := mktestUtils {
  logger : Logger;
  apiTimeout : Z
}.

Definition NewTestUtils (apiTimeout : Z) (logger : Logger) : testUtils :=
  {| logger := logger; apiTimeout := apiTimeout |}.

(** The second parameter is declared with the blank identifier. *)
Definition SimulateRequest (t : testUtils) (ctx : Context) (_ : Z)
    (tc : TestCase) (testSetID : string) : prog (option HTTPResp * option error) :=
  if decide (Kind tc = HTTP) then
    perform (Debug (logger t) "Before simulating the request"
               [AnyTestCase "Test case" tc]);;
    perform (Debug (logger t)
               ("the url of the testcase: " +:+ URL (HTTPReq tc)) []);;
    '(resp, err) ← perform (SimulateHTTP ctx tc testSetID (logger t) (apiTimeout t));
    perform (Debug (logger t) "After simulating the request"
               [AnyString "test case id" (Name tc)]);;
    perform (Debug (logger t) "After GetResp of the request"
               [AnyString "test case id" (Name tc)]);;
    mret (resp, err)
  else mret (None, None).

(** One request made of a collaborator during a run. *)
Inductive call : Type :=
| DebugCall (lg : Logger) (msg : string) (fields : list field)
| SimulateHTTPCall (ctx : Context) (tc : TestCase) (testSetID : string)
    (lg : Logger) (apiTimeout : Z).

(** Runs a program against a transport [send], listing the calls made. *)
Fixpoint run {A} (send : Context → TestCase → string → Logger → Z →
                         option HTTPResp * option error)
    (p : prog A) : list call * A :=
  match p with
  | Done a => ([], a)
  | Do e k =>
      match e in effect X return (X → prog A) → list call * A with
      | Debug lg msg fields => λ k,
          let '(cs, a) := run send (k tt) in (DebugCall lg msg fields :: cs, a)
      | SimulateHTTP ctx tc testSetID lg apiTimeout => λ k,
          let '(cs, a) := run send (k (send ctx tc testSetID lg apiTimeout)) in
          (SimulateHTTPCall ctx tc testSetID lg apiTimeout :: cs, a)
      end k
  end.

(** The timeout bounds handed to the HTTP transport, in call order. *)
Definition transport_bounds (cs : list call) : list Z :=
  omap (λ c, match c with
             | SimulateHTTPCall _ _ _ _ apiTimeout => Some apiTimeout
             | DebugCall _ _ _ => None
             end) cs.

End emulator.

Arguments Done {Context Logger A} a.
Arguments Do {Context Logger A X} e k.
Arguments Debug {Context Logger} lg msg fields.
Arguments SimulateHTTP {Context Logger} ctx tc testSetID lg apiTimeout.
Arguments DebugCall {Context Logger} lg msg fields.
Arguments SimulateHTTPCall {Context Logger} ctx tc testSetID lg apiTimeout.
Arguments mktestUtils {Logger} logger apiTimeout.
Arguments logger {Logger} t.
Arguments apiTimeout {Logger} t.
Arguments NewTestUtils {Logger} apiTimeout logger.
Arguments SimulateRequest {Context Logger} HTTP t ctx _ tc testSetID.
Arguments run {Context Logger A} send p.
Arguments transport_bounds {Context Logger} cs.

(** The transport calls of a run, with all their arguments. *)
Definition transport_calls {Context Logger : Type}
    (cs : list (call Context Logger)) : list (call Context Logger) :=
  omap (λ c, match c with
             | SimulateHTTPCall _ _ _ _ _ => Some c
             | DebugCall _ _ _ => None
             end) cs.

(** ** Noise maps as values

    A noise map, as a caller writes it down, is a value: nil, or a map from
    scope to nil or a map from field to patterns.  [heap_of base override]
    is the store that holds a base and an override given as such values,
    each map of each of the two an object of its own, and [base_ref] and
    [override_ref] are the two references a caller then passes. *)

Abbreviation noise_value :=
  (option (gmap string (option (gmap string (list string))))) (only parsing).

(** The address of the map of scope [k] of the base ([side = false]) or of
    the override ([side = true]). *)
Definition scope_loc (side : bool) (k : string) : positive := encode (side, k).

Definition scope_refs (side : bool)
    (v : gmap string (option (gmap string (list string)))) : gmap string (option positive) :=
  map_imap (λ k (o : option (gmap string (list string))),
              Some (match o with Some _ => Some (scope_loc side k) | None => None end)) v.

Definition scope_objects (side : bool)
    (v : gmap string (option (gmap string (list string))))
    : gmap positive (gmap string (list string)) :=
  kmap (scope_loc side) (omap id v).

Definition heap_of (base override : noise_value) : heap :=
  Heap (from_option (λ v, {[ 1%positive := scope_refs false v ]}) ∅ base
        ∪ from_option (λ v, {[ 2%positive := scope_refs true v ]}) ∅ override)
       (scope_objects false (default ∅ base) ∪ scope_objects true (default ∅ override)).

Definition base_ref (base : noise_value) : GlobalNoise :=
  match base with Some _ => Some 1%positive | None => None end.

Definition override_ref (override : noise_value) : GlobalNoise :=
  match override with Some _ => Some 2%positive | None => None end.

(** The bindings of scope [s] of a noise map value; an absent scope and a
    nil scope map read as empty. *)
Definition value_scope (v : noise_value) (s : string) : gmap string (list string) :=
  default ∅ (v ≫= λ m, mjoin (m !! s)).

(** The map a noise map value holds for scope [s], if it holds one. *)
Definition scope_map (v : noise_value) (s : string) : option (gmap string (list string)) :=
  v ≫= λ m, mjoin (m !! s).

(** The store a run ends in, whether it returns or panics. *)
Definition store_after {A} (o : outcome A) : heap :=
  match o with
  | Returned _ h => h
  | Panicked _ h => h
  end.

(** ** Sample noise maps *)

Module samples.

(** [GlobalNoise{"body": {"id": {"old"}}, "header": {}}] *)
Definition global : noise_value :=
  Some {[ "body" := Some {[ "id" := ["old"] ]}; "header" := Some ∅ ]}.

(** [GlobalNoise{}] *)
Definition empty_global : noise_value := Some ∅.

(** [GlobalNoise{"body": {"id": {}}}] *)
Definition testset : noise_value := Some {[ "body" := Some {[ "id" := [] ]} ]}.

(** [GlobalNoise{"body": {"id": {"old"}}}], without a "header" scope. *)
Definition half_global : noise_value := Some {[ "body" := Some {[ "id" := ["old"] ]} ]}.

(** [GlobalNoise{"body": {"id": {}, "ts": {"\\d+"}}, "header": {"Date": {}}}] *)
Definition both_scopes : noise_value :=
  Some {[ "body" := Some {[ "id" := []; "ts" := ["\d+"] ]};
          "header" := Some {[ "Date" := [] ]} ]}.

(** A store with sharing: the global noise map
    [{"body": {}, "header": m}] at address 1 and the test-set noise map
    [{"body": m, "header": {"k": ["p"]}}] at address 2, where [m] is one and
    the same empty map object, at address 11. *)
Definition shared_scope : heap :=
  Heap {[ 1%positive := {[ "body" := Some 10%positive; "header" := Some 11%positive ]};
          2%positive := {[ "body" := Some 11%positive; "header" := Some 21%positive ]} ]}
       {[ 10%positive := ∅;
          11%positive := ∅;
          21%positive := {[ "k" := ["p"] ]} ]}.

End samples.

(** ** Package utils

    [utils/utils.go].  What the functions of the package take from the
    operating system ([runtime.GOOS], the environment, standard input,
    commands they run) is an argument of their model, and so is what package
    [strings] takes from package [unicode] for text that is not ASCII. *)

Module unicode.

(** [strings.Map(unicode.ToLower, s)], [strings.Map(unicode.ToUpper, s)],
    [strings.TrimFunc(s, unicode.IsSpace)] and
    [strings.TrimRightFunc(s, unicode.IsSpace)]: what [strings.ToLower],
    [strings.ToUpper] and [strings.TrimSpace] fall back to when they meet a
    byte that is not ASCII. *)
Record tables : Type := mktables {
  MapToLower : string → string;
  MapToUpper : string → string;
  TrimFuncIsSpace : string → string;
  TrimRightFuncIsSpace : string → string
}.

End unicode.

Module text.
Import strings unicode.

Definition is_ascii (c : ascii) : bool := (N_of_ascii c <? 128)%N.

Fixpoint isASCII (s : string) : bool :=
  match s with
  | "" => true
  | String c s' => is_ascii c && isASCII s'
  end.

(** [strings.ToLower(s)]: the ASCII letters are mapped when [s] is ASCII,
    and otherwise every rune is mapped by [unicode.ToLower]. *)
Definition ToLower (U : tables) (s : string) : string :=
  if isASCII s then strings.ToLower s else MapToLower U s.

(** The table [asciiSpace] of package [strings]: tab, line feed, vertical
    tab, form feed, carriage return and space. *)
Definition asciiSpace (c : ascii) : bool :=
  bool_decide (N_of_ascii c ∈ [9; 10; 11; 12; 13; 32]%N).

Fixpoint trimLeftASCII (s : string) : string :=
  match s with
  | "" => ""
  | String c s' => if asciiSpace c then trimLeftASCII s' else s
  end.

Fixpoint trimRightASCII (s : string) : string :=
  match s with
  | "" => ""
  | String c s' =>
      let t := trimRightASCII s' in
      if bool_decide (t = "") && asciiSpace c then "" else String c t
  end.

Fixpoint all_space (s : string) : bool :=
  match s with
  | "" => true
  | String c s' => asciiSpace c && all_space s'
  end.

Definition first_byte_not_ascii (s : string) : bool :=
  match s with
  | "" => false
  | String c _ => negb (is_ascii c)
  end.

Fixpoint last_byte_not_ascii (s : string) : bool :=
  match s with
  | "" => false
  | String c "" => negb (is_ascii c)
  | String _ s' => last_byte_not_ascii s'
  end.

(** [strings.TrimSpace(s)]: ASCII white space is cut from the start up to
    the first other byte; if that byte is not ASCII the rest is left to
    [TrimFunc].  Then the same from the end, with [TrimRightFunc]. *)
Definition TrimSpace (U : tables) (s : string) : string :=
  let s := trimLeftASCII s in
  if first_byte_not_ascii s then TrimFuncIsSpace U s
  else
    let s := trimRightASCII s in
    if last_byte_not_ascii s then TrimRightFuncIsSpace U s else s.

(** [strings.Split(s, sep)[0]] for a non-empty [sep]: the text before the
    first [sep], or all of [s]. *)
Definition Split_first (s sep : string) : string :=
  match Index s sep with
  | Some i => take i s
  | None => s
  end.

(** [strings.ToUpper(s)] on ASCII text: the letters a to z are mapped, byte
    by byte. *)
Fixpoint upper_bytes (s : string) : string :=
  match s with
  | "" => ""
  | String c s' =>
      String (if byte_in "a" "z" c then ascii_of_N (N_of_ascii c - 32) else c) (upper_bytes s')
  end.

(** [strings.ToUpper(s)]: byte by byte when [s] is ASCII, and otherwise
    every rune is mapped by [unicode.ToUpper]. *)
Definition ToUpper (U : tables) (s : string) : string :=
  if isASCII s then upper_bytes s else MapToUpper U s.

(** [strings.ReplaceAll(s, old, new)] for a one-byte [old]: every byte
    [old] of [s] gives way to [new]. *)
Fixpoint ReplaceAll_byte (s : string) (old : ascii) (new : string) : string :=
  match s with
  | "" => ""
  | String c s' =>
      (if decide (c = old) then new else String c "") +:+ ReplaceAll_byte s' old new
  end.

End text.

Module utils.
Import strings text.

(** *** Keys *)

(** [Keys] when the loop visits the entries [kvs]: every key is appended
    to the slice. *)
Definition Keys_visiting (kvs : list (string * list string)) : list string :=
  foldl (λ keys kv, (keys ++ [kv.1])%list) [] kvs.

(** [Keys(m)]; the nil map reads as the empty map. *)
Definition Keys (m : gmap string (list string)) : list string :=
  Keys_visiting (map_to_list m).

(** *** FetchHomeDirectory *)

Definition FetchHomeDirectory (GOOS : string) (Getenv : string → string)
    (isNewConfigPath : bool) : string :=
  let configFolder := "/.keploy-config" in
  let configFolder := if isNewConfigPath then "/.keploy" else configFolder in
  if bool_decide (GOOS = "windows") then
    let home := Getenv "HOMEDRIVE" +:+ Getenv "HOMEPATH" in
    let home := if bool_decide (home = "") then Getenv "USERPROFILE" else home in
    home +:+ configFolder
  else Getenv "HOME" +:+ configFolder.

(** *** FindDockerCmd *)

(** [type CmdType string] and its three constants. *)
Definition Docker : string := "docker".
Definition DockerCompose : string := "docker-compose".
Definition Native : string := "native".

Definition FindDockerCmd (U : unicode.tables) (cmd : string) : string :=
  let cmdLower := TrimSpace U (ToLower U cmd) in
  let dockerPatterns := ["docker"; "sudo docker"] in
  let dockerComposePatterns :=
    ["docker-compose"; "sudo docker-compose"; "docker compose"; "sudo docker compose"] in
  if existsb (HasPrefix cmdLower) dockerComposePatterns then DockerCompose
  else if existsb (HasPrefix cmdLower) dockerPatterns then Docker
  else Native.

(** *** AskForConfirmation *)

(** [io.EOF] *)
Definition EOF : error := errorString "EOF".

Definition newline : ascii := ascii_of_nat 10.

(** What the calls [reader.ReadString('\n')] return, one after the other,
    on an input that ends: each line with its line feed and a nil error;
    then what is left, with [io.EOF].  [line] holds the bytes of the
    current line read so far. *)
Fixpoint reads_of (input line : string) : list (string * option error) :=
  match input with
  | "" => [(line, Some EOF)]
  | String c rest =>
      if bool_decide (c = newline) then (line +:+ String c "", None) :: reads_of rest ""
      else reads_of rest (line +:+ String c "")
  end.

(** [AskForConfirmation(s)] when the successive calls of [ReadString]
    return [reads]: what is printed, and the result, [None] when the
    function is left waiting for more input. *)
Fixpoint AskForConfirmation (U : unicode.tables) (s : string)
    (reads : list (string * option error)) : list string * option (bool * option error) :=
  let prompt := s +:+ " [y/n]: " in
  match reads with
  | [] => ([prompt], None)
  | (response, Some err) :: _ => ([prompt], Some (false, Some err))
  | (response, None) :: reads' =>
      let response := ToLower U (TrimSpace U response) in
      if bool_decide (response = "y") || bool_decide (response = "yes")
      then ([prompt], Some (true, None))
      else if bool_decide (response = "n") || bool_decide (response = "no")
      then ([prompt], Some (false, None))
      else let '(out, result) := AskForConfirmation U s reads' in (prompt :: out, result)
  end.

(** The answer a line stands for, if it is one of "y", "yes", "n", "no"
    once trimmed and lower-cased. *)
Definition answer_of (U : unicode.tables) (response : string) : option bool :=
  let response := ToLower U (TrimSpace U response) in
  if bool_decide (response = "y") || bool_decide (response = "yes") then Some true
  else if bool_decide (response = "n") || bool_decide (response = "no") then Some false
  else None.

(** *** getAlias and RunInDocker *)

Definition tab : ascii := ascii_of_nat 9.

(** The fields the two functions pass to the logger: [zap.Error] and
    [zap.String]. *)
Inductive zapField : Type :=
| zapError (err : error)
| zapString (key val : string).

Inductive level : Type := DebugLevel | InfoLevel | ErrorLevel.

(** Text without white space, as a line of [docker context ls] is on each
    side of the tab. *)
Fixpoint no_space (s : string) : bool :=
  match s with
  | "" => true
  | String c s' => negb (asciiSpace c) && no_space s'
  end.

Section docker.

(** [context.Context] and [*zap.Logger] are opaque to this file; their
    values here are the contexts and loggers that are not nil (on a nil
    context [exec.CommandContext] panics). *)
Variables (Context Logger : Type).

(** What the two functions take from the operating system:
    [runtime.GOOS], [os.Getenv], and the commands they start with package
    [os/exec].  [Output ctx name args] is what
    [exec.CommandContext(ctx, name, args...).Output()] returns, the bytes
    the command wrote to its standard output and an error, and
    [Run ctx name args] the error of [cmd.Run()] for a command that has the
    standard streams of the process. *)
Record system : Type := mksystem {
  GOOS : string;
  Getenv : string → string;
  Output : Context → string → list string → string * option error;
  Run : Context → string → list string → option error
}.

(** What a call leaves behind: lines on the logger and commands started. *)
Inductive event : Type :=
| Logged (lg : Logger) (lvl : level) (msg : string) (fields : list zapField)
| OutputOf (ctx : Context) (name : string) (args : list string)
| RunOf (ctx : Context) (name : string) (args : list string).

(** A computation that leaves events behind, in order, and returns. *)
Definition proc (A : Type) : Type := list event * A.

#[local] Instance proc_ret : MRet proc := λ A a, ([], a).
#[local] Instance proc_bind : MBind proc :=
  λ A B f m, ((m.1 ++ (f m.2).1)%list, (f m.2).2).

Variables (U : unicode.tables) (sys : system).

Definition log (lg : Logger) (lvl : level) (msg : string) (fields : list zapField)
    : proc unit :=
  ([Logged lg lvl msg fields], tt).

Definition cmd_Output (ctx : Context) (name : string) (args : list string)
    : proc (string * option error) :=
  ([OutputOf ctx name args], Output sys ctx name args).

Definition cmd_Run (ctx : Context) (name : string) (args : list string)
    : proc (option error) :=
  ([RunOf ctx name args], Run sys ctx name args).

Definition getAlias (ctx : Context) (logger : Logger) : proc (string * option error) :=
  let osName := GOOS sys in
  if bool_decide (osName = "linux") then
    let alias := "sudo docker run --pull always --name keploy-v2 -e BINARY_TO_DOCKER=true -p 16789:16789 --privileged --pid=host -it -v " +:+ Getenv sys "PWD" +:+ ":" +:+ Getenv sys "PWD" +:+ " -w " +:+ Getenv sys "PWD" +:+ " -v /sys/fs/cgroup:/sys/fs/cgroup -v /sys/kernel/debug:/sys/kernel/debug -v /sys/fs/bpf:/sys/fs/bpf -v /var/run/docker.sock:/var/run/docker.sock -v " +:+ Getenv sys "HOME" +:+ "/.keploy-config:/root/.keploy-config -v " +:+ Getenv sys "HOME" +:+ "/.keploy:/root/.keploy --rm ghcr.io/keploy/keploy " in
    mret (alias, None)
  else if bool_decide (osName = "darwin") then
    '(out, err) ← cmd_Output ctx "docker"
                    ["context"; "ls"; "--format"; "{{.Name}}" +:+ String tab "{{.Current}}"];
    match err with
    | Some err =>
        log logger ErrorLevel "Failed to get the current docker context" [zapError err];;
        mret ("", Some (errorString "failed to get alias"))
    | None =>
        let dockerContext := Split_first (TrimSpace U out) (String newline "") in
        if bool_decide (String.length dockerContext = 0) then
          log logger ErrorLevel "Could not get the current docker context" [];;
          mret ("", Some (errorString "failed to get alias"))
        else
          let dockerContext := Split_first dockerContext (String newline "") in
          if bool_decide (dockerContext = "colima") then
            log logger InfoLevel "Starting keploy in docker with colima context, as that is the current context." [];;
            let alias := "docker run --pull always --name keploy-v2 -e BINARY_TO_DOCKER=true -p 16789:16789 --privileged --pid=host -it -v " +:+ Getenv sys "PWD" +:+ ":" +:+ Getenv sys "PWD" +:+ " -w " +:+ Getenv sys "PWD" +:+ " -v /sys/fs/cgroup:/sys/fs/cgroup -v /sys/kernel/debug:/sys/kernel/debug -v /sys/fs/bpf:/sys/fs/bpf -v /var/run/docker.sock:/var/run/docker.sock -v " +:+ Getenv sys "HOME" +:+ "/.keploy-config:/root/.keploy-config -v " +:+ Getenv sys "HOME" +:+ "/.keploy:/root/.keploy --rm ghcr.io/keploy/keploy " in
            mret (alias, None)
          else
            log logger InfoLevel "Starting keploy in docker with default context, as that is the current context." [];;
            let alias := "docker run --pull always --name keploy-v2 -e BINARY_TO_DOCKER=true -p 16789:16789 --privileged --pid=host -it -v " +:+ Getenv sys "PWD" +:+ ":" +:+ Getenv sys "PWD" +:+ " -w " +:+ Getenv sys "PWD" +:+ " -v /sys/fs/cgroup:/sys/fs/cgroup -v debugfs:/sys/kernel/debug:rw -v /sys/fs/bpf:/sys/fs/bpf -v /var/run/docker.sock:/var/run/docker.sock -v " +:+ Getenv sys "HOME" +:+ "/.keploy-config:/root/.keploy-config -v " +:+ Getenv sys "HOME" +:+ "/.keploy:/root/.keploy --rm ghcr.io/keploy/keploy " in
            mret (alias, None)
    end
  else if bool_decide (osName = "Windows") then
    log logger ErrorLevel "Windows is not supported. Use WSL2 instead." [];;
    mret ("", Some (errorString "failed to get alias"))
  else mret ("", Some (errorString "failed to get alias")).

Definition RunInDocker (ctx : Context) (logger : Logger) (command : string)
    : proc (option error) :=
  '(keployAlias, err) ← getAlias ctx logger;
  match err with
  | Some err => mret (Some err)
  | None =>
      log logger DebugLevel "This is the keploy alias" [zapString "keployAlias:" keployAlias];;
      err ← cmd_Run ctx "sh" ["-c"; keployAlias +:+ " " +:+ command];
      match err with
      | Some err =>
          log logger ErrorLevel "Failed to start keploy in docker" [zapError err];;
          mret (Some err)
      | None => mret None
      end
  end.

(** The commands run with [cmd.Run] among the events, in order. *)
Definition runs (evs : list event) : list (Context * string * list string) :=
  omap (λ e, match e with
             | RunOf ctx name args => Some (ctx, name, args)
             | _ => None
             end) evs.

(** The lines logged at error level among the events, in order. *)
Definition error_lines (evs : list event) : list string :=
  omap (λ e, match e with
             | Logged _ ErrorLevel msg _ => Some msg
             | _ => None
             end) evs.

End docker.

Arguments Logged {Context Logger} lg lvl msg fields.
Arguments OutputOf {Context Logger} ctx name args.
Arguments RunOf {Context Logger} ctx name args.
Arguments mksystem {Context} GOOS Getenv Output Run.
Arguments GOOS {Context} s.
Arguments Getenv {Context} s _.
Arguments Output {Context} s ctx name args.
Arguments Run {Context} s ctx name args.
Arguments getAlias {Context Logger} U sys ctx logger.
Arguments RunInDocker {Context Logger} U sys ctx logger command.
Arguments runs {Context Logger} evs.
Arguments error_lines {Context Logger} evs.

(** *** BindFlagsToViper *)

Section viper.

Variable Logger : Type.

(** A flag that [VisitAll] visits, by its name, with what
    [viper.BindPFlag] and [viper.BindEnv] return when called for it. *)
Record visit : Type := mkvisit {
  flagName : string;
  errBindPFlag : option error;
  errBindEnv : option error
}.

(** What [BindFlagsToViper] asks of package [viper] and of the logger. *)
Inductive binding : Type :=
| SetEnvPrefix (prefix : string)
| BindPFlag (key : string) (flag : string)
| BindEnv (key : string) (envVarName : string)
| LogError (lg : Logger) (msg : string) (err : error).

(** [BindFlagsToViper(logger, cmd, viperKeyPrefix)] when [cmd.Name()] is
    [cmdName] and [VisitAll] visits [flags]: the calls made, in order.
    The function literal assigns to the variable [viperKeyPrefix] it
    captures, so the next flag sees the assignment. *)
Fixpoint BindFlagsToViper (U : unicode.tables) (logger : Logger) (cmdName : string)
    (viperKeyPrefix : string) (flags : list visit) : list binding :=
  match flags with
  | [] => []
  | flag :: flags' =>
      let viperKeyPrefix :=
        if bool_decide (viperKeyPrefix = "") then cmdName else viperKeyPrefix in
      let viperKey := viperKeyPrefix +:+ "." +:+ flagName flag in
      let envVarName := ToUpper U (viperKeyPrefix +:+ "_" +:+ flagName flag) in
      let envVarName := ReplaceAll_byte envVarName "." "_" in
      ([SetEnvPrefix "KEPLOY"; BindPFlag viperKey (flagName flag)]
       ++ match errBindPFlag flag with
          | Some err => [LogError logger "Failed to bind flag to config" err]
          | None => []
          end
       ++ [BindEnv viperKey envVarName]
       ++ match errBindEnv flag with
          | Some err =>
              [LogError logger "Failed to bind environment variables to config" err]
          | None => []
          end
       ++ BindFlagsToViper U logger cmdName viperKeyPrefix flags')%list
  end.

(** The flags bound with [viper.BindPFlag], and the environment variables
    bound with [viper.BindEnv], each with its key, in order. *)
Definition bound_flags (calls : list binding) : list (string * string) :=
  omap (λ b, match b with BindPFlag key flag => Some (key, flag) | _ => None end) calls.

Definition bound_envs (calls : list binding) : list (string * string) :=
  omap (λ b, match b with BindEnv key env => Some (key, env) | _ => None end) calls.

End viper.

Arguments SetEnvPrefix {Logger} prefix.
Arguments BindPFlag {Logger} key flag.
Arguments BindEnv {Logger} key envVarName.
Arguments LogError {Logger} lg msg err.
Arguments BindFlagsToViper {Logger} U logger cmdName viperKeyPrefix flags.
Arguments bound_flags {Logger} calls.
Arguments bound_envs {Logger} calls.

End utils.

(** * Properties *)

(** ** The merge in closed form *)

Section loop_facts.
Implicit Types (h : heap) (l : positive) (kvs : list (string * list string)).
Implicit Types (m src : gmap string (list string)).

Lemma index_store_inner g k l m h : index g k (store_inner l m h) = index g k h.
Proof. reflexivity. Qed.

Lemma entries_store_inner r l m h :
  entries r (store_inner l m h) = if decide (r = Some l) then m else entries r h.
Proof.
  unfold entries, object, store_inner.
  destruct r as [l'|]; cbn [mbind option_bind outers inners].
  - rewrite lookup_insert. repeat case_decide; simplify_eq; done.
  - by rewrite decide_False.
Qed.

Lemma store_inner_twice l m m' h :
  store_inner l m' (store_inner l m h) = store_inner l m' h.
Proof. unfold store_inner; simpl. by rewrite insert_insert_eq. Qed.

Lemma store_inner_same l h m :
  inners h !! l = Some m → store_inner l m h = h.
Proof. intros H. destruct h; unfold store_inner; simpl in *. by rewrite insert_id. Qed.

Lemma assign_all_union kvs m :
  NoDup kvs.*1 → assign_all m kvs = list_to_map kvs ∪ m.
Proof.
  revert m. induction kvs as [|[k v] kvs IH]; intros m Hnd; simpl.
  - by rewrite (left_id_L ∅ (∪)).
  - apply NoDup_cons in Hnd as [Hk Hnd]. rewrite IH by done.
    rewrite <- insert_union_l. apply symmetry, insert_union_r.
    by apply not_elem_of_list_to_map_1.
Qed.

Lemma assign_all_map_to_list src m : assign_all m (map_to_list src) = src ∪ m.
Proof.
  rewrite assign_all_union by apply NoDup_fst_map_to_list.
  by rewrite list_to_map_to_list.
Qed.

Lemma for_each_nil_map noise s kvs h :
  index noise s h = None → kvs ≠ [] →
  for_each kvs (assign_in noise s) h = Panicked "assignment to entry in nil map" h.
Proof.
  intros Hi Hne. destruct kvs as [|[k v] kvs]; [done|]. simpl.
  unfold bind, assign_in, mbind, go_bind, bind, mapaccess. by rewrite Hi.
Qed.

Lemma for_each_map noise s l kvs h :
  index noise s h = Some l →
  for_each kvs (assign_in noise s) h =
    Returned tt (match kvs with
                 | [] => h
                 | _ => store_inner l (assign_all (entries (Some l) h) kvs) h
                 end).
Proof.
  revert h. induction kvs as [|[k v] kvs IH]; intros h Hi; [done|].
  cbn [for_each]. unfold bind at 1.
  unfold assign_in at 1, mbind, go_bind, bind, mapaccess. rewrite Hi. cbn [mapassign].
  rewrite IH by (by rewrite index_store_inner).
  destruct kvs as [|kv kvs]; [done|].
  rewrite entries_store_inner, decide_True by done.
  by rewrite store_inner_twice.
Qed.

(** Go visits the entries of a map in an unspecified order; the outcome of
    these loops does not depend on it. *)
Lemma for_each_any_order noise s kvs kvs' h :
  NoDup kvs.*1 → kvs ≡ₚ kvs' →
  for_each kvs (assign_in noise s) h = for_each kvs' (assign_in noise s) h.
Proof.
  intros Hnd Hp. destruct (index noise s h) as [l|] eqn:Hi.
  - rewrite !(for_each_map _ _ l) by done.
    destruct kvs as [|kv kvs], kvs' as [|kv' kvs'];
      [done|by apply Permutation_nil_cons in Hp
           |by apply symmetry, Permutation_nil_cons in Hp|].
    rewrite !assign_all_union; [|by rewrite <- Hp|done].
    by rewrite (list_to_map_proper _ _ Hnd Hp).
  - destruct kvs as [|kv kvs], kvs' as [|kv' kvs'];
      [done|by apply Permutation_nil_cons in Hp
           |by apply symmetry, Permutation_nil_cons in Hp|].
    by rewrite !for_each_nil_map.
Qed.

Lemma range_join_scope noise tsNoise s h :
  range (index tsNoise s h) (assign_in noise s) h = join_scope s noise tsNoise h.
Proof.
  unfold range, join_scope, join_objects. fold (entries (index tsNoise s h) h).
  set (src := entries (index tsNoise s h) h).
  case_decide as Hsrc.
  - rewrite Hsrc, map_to_list_empty. by destruct h.
  - assert (map_to_list src ≠ []) as Hne
      by (by intros ?%map_to_list_empty_iff).
    destruct (index noise s h) as [l|] eqn:Hi.
    + rewrite (for_each_map _ _ l) by done.
      rewrite assign_all_map_to_list.
      by destruct (map_to_list src).
    + by apply for_each_nil_map.
Qed.

Lemma LeftJoinNoise_unfold globalNoise tsNoise h :
  LeftJoinNoise globalNoise tsNoise h =
    match join_scope "body" globalNoise tsNoise h with
    | Returned _ h1 =>
        match join_scope "header" globalNoise tsNoise h1 with
        | Returned _ h2 => Returned globalNoise h2
        | Panicked msg h2 => Panicked msg h2
        end
    | Panicked msg h1 => Panicked msg h1
    end.
Proof.
  pose proof (range_join_scope globalNoise tsNoise) as Hloop.
  unfold assign_in, mbind, go_bind, bind, mapaccess in Hloop.
  unfold LeftJoinNoise, mbind, go_bind, bind, mapaccess.
  rewrite Hloop.
  destruct (join_scope "body" _ _ _) as [[] h1|]; [|done].
  rewrite Hloop.
  by destruct (join_scope "header" _ _ _) as [[] h2|].
Qed.
End loop_facts.

(** ** Facts about the merge *)


Section merge_facts.
Implicit Types (h : heap) (l : positive) (g base override : option positive).
Implicit Types (objs : gmap positive (gmap string (list string))).

Lemma object_insert r l m objs :
  object r (<[l := m]> objs) = if decide (r = Some l) then m else object r objs.
Proof.
  unfold object. destruct r as [l'|]; simpl; [|done].
  rewrite lookup_insert. repeat case_decide; simplify_eq; done.
Qed.




(** [LeftJoinNoise] in terms of the map objects alone: it reads the outer
    maps and never writes them. *)
Lemma LeftJoinNoise_objects base override h :
  LeftJoinNoise base override h =
    match join_objects (index override "body" h) (index base "body" h) (inners h) with
    | Some objs1 =>
        match join_objects (index override "header" h) (index base "header" h) objs1 with
        | Some objs2 => Returned base (Heap (outers h) objs2)
        | None => Panicked "assignment to entry in nil map" (Heap (outers h) objs1)
        end
    | None => Panicked "assignment to entry in nil map" h
    end.
Proof.
  rewrite LeftJoinNoise_unfold. unfold join_scope at 1.
  destruct (join_objects (index override "body" h) _ _) as [objs1|]; [|done].
  unfold join_scope. cbn [inners outers].
  change (index ?g ?s (Heap (outers h) objs1)) with (index g s h).
  by destruct (join_objects (index override "header" h) _ _).
Qed.


(** An override without fields leaves the store as it is. *)
Lemma LeftJoinNoise_empty_override base override h :
  scope override "body" h = ∅ → scope override "header" h = ∅ →
  LeftJoinNoise base override h = Returned base h.
Proof.
  unfold scope, entries. intros Hb Hh.
  rewrite LeftJoinNoise_objects. unfold join_objects.
  rewrite Hb, decide_True, Hh, decide_True by done. by destruct h.
Qed.

(** A field in a scope of the override for which the base has no map makes
    the merge panic. *)
Lemma LeftJoinNoise_nil_scope base override h :
  index base "body" h = None → scope override "body" h ≠ ∅ →
  LeftJoinNoise base override h = Panicked "assignment to entry in nil map" h.
Proof.
  unfold scope, entries. intros Hb Hne.
  rewrite LeftJoinNoise_objects. unfold join_objects.
  by rewrite Hb, decide_False.
Qed.

(** When the base has a map of its own for each scope and shares none with
    the override, the merge returns, and each scope of the base then holds
    the override's bindings over the ones it had. *)
Lemma LeftJoinNoise_bindings base override h lb lh :
  index base "body" h = Some lb → index base "header" h = Some lh → lb ≠ lh →
  index override "body" h ≠ Some lb → index override "body" h ≠ Some lh →
  index override "header" h ≠ Some lb → index override "header" h ≠ Some lh →
  ∃ h', LeftJoinNoise base override h = Returned base h'
        ∧ scope base "body" h' = scope override "body" h ∪ scope base "body" h
        ∧ scope base "header" h' = scope override "header" h ∪ scope base "header" h
        ∧ scope override "body" h' = scope override "body" h
        ∧ scope override "header" h' = scope override "header" h.
Proof.
  intros Eb Eh Hne Hbb Hbh Hhb Hhh.
  rewrite LeftJoinNoise_objects. unfold join_objects, scope, entries.
  rewrite Eb, Eh.
  assert (∀ m : gmap string (list string), m = ∅ → ∀ e, m ∪ e = e) as Hempty
    by (intros m -> e; apply (left_id_L ∅ (∪))).
  set (a := object (index override "body" h) (inners h)).
  destruct (decide (a = ∅)) as [Ea|Ea].
  - set (c := object (index override "header" h) (inners h)).
    destruct (decide (c = ∅)) as [Ec|Ec]; eexists; (split; [reflexivity|]);
      change (index ?g ?s (Heap (outers h) ?o)) with (index g s h);
      rewrite ?Eb, ?Eh; cbn [inners];
      rewrite ?object_insert; fold a c; rewrite ?(Hempty a Ea), ?(Hempty c Ec);
      repeat split; repeat case_decide; congruence.
  - rewrite !object_insert.
    rewrite !(decide_False (P:=index override "header" h = Some lb)) by done.
    rewrite !(decide_False (P:=Some lh = Some lb)) by congruence.
    set (c := object (index override "header" h) (inners h)).
    destruct (decide (c = ∅)) as [Ec|Ec]; eexists; (split; [reflexivity|]);
      change (index ?g ?s (Heap (outers h) ?o)) with (index g s h);
      rewrite ?Eb, ?Eh; cbn [inners];
      rewrite ?object_insert; fold a c; rewrite ?(Hempty c Ec);
      repeat split; repeat case_decide; congruence.
Qed.
End merge_facts.

(** ** LeftJoinNoise: the claims *)

(** C1.  The merge is claimed to leave the caller's base map as it was.  On
    the global map [{"body": {"id": ["old"]}, "header": {}}] and the test-set
    map [{"body": {"id": []}}] it returns the base map itself, and the
    base's "body" scope, which bound "id" to ["old"] before the call, binds
    it to the empty sequence afterwards. *)
Theorem LeftJoinNoise_overwrites_base :
  let h := heap_of samples.global samples.testset in
  let base := base_ref samples.global in
  ∃ h', LeftJoinNoise base (override_ref samples.testset) h = Returned base h'
        ∧ scope base "body" h !! "id" = Some ["old"]
        ∧ scope base "body" h' !! "id" = Some [].
Proof. eexists. split; [vm_compute; reflexivity|]. split; vm_compute; reflexivity. Qed.

(** C2.  The merge is claimed to yield, for every base and override, a
    result that binds each field of the override to the override's patterns.
    On the empty global map [{}] and the test-set map [{"body": {"id": []}}],
    whose field "id" is bound to the empty sequence, it yields no result. *)
Theorem LeftJoinNoise_no_result_on_empty_global :
  let h := heap_of samples.empty_global samples.testset in
  scope (override_ref samples.testset) "body" h !! "id" = Some []
  ∧ ∀ r h', LeftJoinNoise (base_ref samples.empty_global) (override_ref samples.testset) h
            ≠ Returned r h'.
Proof.
  split; [vm_compute; reflexivity|]. intros r h'.
  rewrite LeftJoinNoise_nil_scope; [done|vm_compute; reflexivity|].
  intros Hempty. apply (f_equal (.!! "id")) in Hempty. vm_compute in Hempty. done.
Qed.

(** C3.  The merge is claimed never to fail.  On the empty global map [{}]
    and the test-set map [{"body": {"id": []}}] it panics with Go's
    "assignment to entry in nil map", before any write. *)
Theorem LeftJoinNoise_panics_on_empty_global :
  let h := heap_of samples.empty_global samples.testset in
  LeftJoinNoise (base_ref samples.empty_global) (override_ref samples.testset) h
  = Panicked "assignment to entry in nil map" h.
Proof. vm_compute. reflexivity. Qed.


(** Without that proviso the second merge can differ: when the override's
    "body" map is the very object that is the base's "header" map, the
    first merge changes the override, and the second then adds a field to
    the base's "body". *)
Lemma LeftJoinNoise_twice_shared_scope :
  ∃ h1 h2,
    LeftJoinNoise (Some 1%positive) (Some 2%positive) samples.shared_scope
      = Returned (Some 1%positive) h1
    ∧ LeftJoinNoise (Some 1%positive) (Some 2%positive) h1 = Returned (Some 1%positive) h2
    ∧ scope (Some 1%positive) "body" h1 !! "k" = None
    ∧ scope (Some 1%positive) "body" h2 !! "k" = Some ["p"].
Proof.
  do 2 eexists. split; [vm_compute; reflexivity|].
  split; [vm_compute; reflexivity|]. split; vm_compute; reflexivity.
Qed.

Section values.
Implicit Types (base override : option (gmap string (option (gmap string (list string))))).

Lemma scope_loc_sides s s' : scope_loc false s ≠ scope_loc true s'.
Proof. unfold scope_loc. by intros ?%(inj encode). Qed.

Lemma index_base_ref base override s l :
  index (base_ref base) s (heap_of base override) = Some l → l = scope_loc false s.
Proof.
  unfold index, base_ref, heap_of. destruct base as [v|]; [|done].
  cbn [mbind option_bind outers from_option].
  erewrite lookup_union_Some_l by apply lookup_singleton_eq.
  cbn [mbind option_bind]. unfold scope_refs. rewrite map_lookup_imap.
  destruct (v !! s) as [[m|]|]; simpl; congruence.
Qed.



End values.

(** ** Merging noise map values *)

Section value_facts.
Implicit Types (base override : option (gmap string (option (gmap string (list string))))).

#[local] Instance scope_loc_inj side : Inj (=) (=) (scope_loc side).
Proof. intros k k' Hk. unfold scope_loc in Hk. by apply (inj encode) in Hk as [= ->]. Qed.

Lemma scope_objects_lookup side v s :
  scope_objects side v !! scope_loc side s = mjoin (v !! s).
Proof.
  unfold scope_objects. rewrite (lookup_kmap (scope_loc side)), lookup_omap.
  by destruct (v !! s) as [[m|]|].
Qed.

Lemma scope_objects_other side v s : scope_objects side v !! scope_loc (negb side) s = None.
Proof.
  unfold scope_objects. apply lookup_kmap_None; [apply _|].
  intros k Hk. unfold scope_loc in Hk. apply (inj encode) in Hk. by destruct side.
Qed.

Lemma index_base_ref_value base override s :
  index (base_ref base) s (heap_of base override)
  = match base ≫= λ v, mjoin (v !! s) with
    | Some _ => Some (scope_loc false s)
    | None => None
    end.
Proof.
  unfold index, base_ref, heap_of. destruct base as [v|]; [|done].
  cbn [mbind option_bind outers from_option].
  erewrite lookup_union_Some_l by apply lookup_singleton_eq.
  cbn [mbind option_bind]. unfold scope_refs. rewrite map_lookup_imap.
  by destruct (v !! s) as [[m|]|].
Qed.

Lemma index_override_ref_value base override s :
  index (override_ref override) s (heap_of base override)
  = match override ≫= λ v, mjoin (v !! s) with
    | Some _ => Some (scope_loc true s)
    | None => None
    end.
Proof.
  unfold index, override_ref, heap_of. destruct override as [v|]; [|done].
  cbn [mbind option_bind outers from_option].
  rewrite lookup_union_r by (destruct base; [by apply lookup_singleton_ne|done]).
  rewrite lookup_singleton_eq.
  cbn [mbind option_bind]. unfold scope_refs. rewrite map_lookup_imap.
  by destruct (v !! s) as [[m|]|].
Qed.

(** A caller reads from the store the values that were put there. *)
Lemma scope_base_ref base override s :
  scope (base_ref base) s (heap_of base override) = value_scope base s.
Proof.
  unfold scope, entries, object, value_scope. rewrite index_base_ref_value.
  destruct base as [v|]; [|done]. cbn [mbind option_bind heap_of inners default].
  destruct (mjoin (v !! s)) as [m|] eqn:Hs; [|done]. cbn [mbind option_bind].
  erewrite lookup_union_Some_l; [done|]. rewrite scope_objects_lookup. unfold id. by rewrite Hs.
Qed.

Lemma scope_override_ref base override s :
  scope (override_ref override) s (heap_of base override) = value_scope override s.
Proof.
  unfold scope, entries, object, value_scope. rewrite index_override_ref_value.
  destruct override as [v|]; [|done]. cbn [mbind option_bind heap_of inners default].
  destruct (mjoin (v !! s)) as [m|] eqn:Hs; [|done]. cbn [mbind option_bind].
  rewrite lookup_union_r by apply (scope_objects_other false).
  rewrite scope_objects_lookup. unfold id. by rewrite Hs.
Qed.

(** X5.  Where the base has a map for both scopes, the merge returns the base,
    and each of its scopes then binds every field of the override to the
    override's patterns, the empty sequence included, and every other field
    as the base did. *)
Lemma LeftJoinNoise_value_bindings base override mb mh :
  base ≫= (λ v, mjoin (v !! "body")) = Some mb →
  base ≫= (λ v, mjoin (v !! "header")) = Some mh →
  ∃ h', LeftJoinNoise (base_ref base) (override_ref override) (heap_of base override)
          = Returned (base_ref base) h'
        ∧ ∀ s field, s = "body" ∨ s = "header" →
            scope (base_ref base) s h' !! field
            = match value_scope override s !! field with
              | Some patterns => Some patterns
              | None => value_scope base s !! field
              end.
Proof.
  intros Hb Hh.
  destruct (LeftJoinNoise_bindings (base_ref base) (override_ref override)
              (heap_of base override) (scope_loc false "body") (scope_loc false "header"))
    as (h' & Hrun & Hbody & Hheader & _).
  - by rewrite index_base_ref_value, Hb.
  - by rewrite index_base_ref_value, Hh.
  - by intros ?%(inj (scope_loc false)).
  - rewrite index_override_ref_value. case_match; [|done].
    by intros [= ?%symmetry%scope_loc_sides].
  - rewrite index_override_ref_value. case_match; [|done].
    by intros [= ?%symmetry%scope_loc_sides].
  - rewrite index_override_ref_value. case_match; [|done].
    by intros [= ?%symmetry%scope_loc_sides].
  - rewrite index_override_ref_value. case_match; [|done].
    by intros [= ?%symmetry%scope_loc_sides].
  - exists h'. split; [done|]. intros s field [-> | ->].
    + rewrite Hbody, scope_base_ref, scope_override_ref, lookup_union.
      by destruct (value_scope override "body" !! field),
                  (value_scope base "body" !! field).
    + rewrite Hheader, scope_base_ref, scope_override_ref, lookup_union.
      by destruct (value_scope override "header" !! field),
                  (value_scope base "header" !! field).
Qed.

(** Merging an override without fields returns the base, and the store is
    as it was. *)
Lemma LeftJoinNoise_value_empty_override base override :
  value_scope override "body" = ∅ → value_scope override "header" = ∅ →
  LeftJoinNoise (base_ref base) (override_ref override) (heap_of base override)
  = Returned (base_ref base) (heap_of base override).
Proof.
  intros Hb Hh. apply LeftJoinNoise_empty_override; by rewrite scope_override_ref.
Qed.
End value_facts.

(** ** Facts about Go strings *)

Section string_facts.
Import strings.
Implicit Types (s p sub pre post : string) (n i j : nat).

Lemma string_app_cons c s1 s2 : String c s1 +:+ s2 = String c (s1 +:+ s2).
Proof. reflexivity. Qed.

Lemma string_app_nil_l s : "" +:+ s = s.
Proof. reflexivity. Qed.

Lemma string_app_assoc s1 s2 s3 : (s1 +:+ s2) +:+ s3 = s1 +:+ s2 +:+ s3.
Proof.
  induction s1 as [|c s1 IH]; [done|]. by rewrite !string_app_cons, IH.
Qed.

Lemma string_app_nil_r s : s +:+ "" = s.
Proof. induction s as [|c s IH]; [done|]. by rewrite string_app_cons, IH. Qed.

Lemma string_length_app s1 s2 :
  String.length (s1 +:+ s2) = String.length s1 + String.length s2.
Proof.
  induction s1 as [|c s1 IH]; [done|]. rewrite string_app_cons. simpl. by rewrite IH.
Qed.

Lemma string_take_drop n s : take n s +:+ drop n s = s.
Proof.
  revert s. induction n as [|n IH]; intros [|c s]; simpl; try done.
  by rewrite string_app_cons, IH.
Qed.

Lemma string_length_take n s : (n ≤ String.length s)%nat → String.length (take n s) = n.
Proof.
  revert s. induction n as [|n IH]; intros [|c s]; simpl; try done; try lia.
  intros Hle. rewrite IH; lia.
Qed.

Lemma string_drop_app_le n s1 s2 :
  (n ≤ String.length s1)%nat → drop n (s1 +:+ s2) = drop n s1 +:+ s2.
Proof.
  revert s1. induction n as [|n IH]; intros [|c s1]; simpl; try done; try lia.
  intros Hle. rewrite ?string_app_cons. apply IH. lia.
Qed.

Lemma string_drop_length_app s1 s2 : drop (String.length s1) (s1 +:+ s2) = s2.
Proof.
  induction s1 as [|c s1 IH]; [by destruct s2|]. by rewrite string_app_cons.
Qed.

Lemma string_drop_all s n : (String.length s ≤ n)%nat → drop n s = "".
Proof.
  revert s. induction n as [|n IH]; intros [|c s]; simpl; try done; try lia.
  intros Hle. apply IH. lia.
Qed.

Lemma string_drop_drop n m s : drop n (drop m s) = drop (m + n) s.
Proof.
  revert s. induction m as [|m IH]; intros s; simpl; [done|].
  destruct s as [|c s]; [by destruct n|]. apply IH.
Qed.

Lemma HasPrefix_split s p : HasPrefix s p = true → s = p +:+ drop (String.length p) s.
Proof.
  revert s. induction p as [|c p IH]; intros s; cbn [HasPrefix String.length drop].
  - by destruct s.
  - destruct s as [|c' s]; [done|]. cbn [HasPrefix]. case_decide; [|done].
    intros Hp. subst c'. rewrite string_app_cons. f_equal. by apply IH.
Qed.

Lemma HasPrefix_app p s : HasPrefix (p +:+ s) p = true.
Proof.
  induction p as [|c p IH]; [by destruct s|].
  rewrite string_app_cons. cbn [HasPrefix]. by rewrite decide_True.
Qed.

Lemma Index_split s sub j :
  Index s sub = Some j → s = take j s +:+ sub +:+ drop (j + String.length sub) s.
Proof.
  revert j. induction s as [|c s IH]; intros j; cbn [Index].
  - destruct (HasPrefix "" sub) eqn:Hp; [|done].
    intros [= <-]. by apply HasPrefix_split in Hp.
  - destruct (HasPrefix (String c s) sub) eqn:Hp.
    + intros [= <-]. by apply HasPrefix_split in Hp.
    + destruct (Index s sub) as [j'|]; [|done]. cbn [fmap option_fmap option_map].
      intros [= <-]. cbn [take drop Nat.add]. rewrite string_app_cons.
      f_equal. by apply IH.
Qed.

Lemma Index_first pre sub post :
  ∃ j, Index (pre +:+ sub +:+ post) sub = Some j ∧ (j ≤ String.length pre)%nat.
Proof.
  induction pre as [|c pre IH].
  - exists 0. split; [|done]. rewrite string_app_nil_l.
    destruct (sub +:+ post) eqn:E; cbn [Index];
      rewrite <- E, HasPrefix_app; done.
  - destruct IH as (j & Hj & Hle). rewrite string_app_cons. cbn [Index].
    destruct (HasPrefix _ sub).
    + exists 0. split; [done|lia].
    + exists (S j). rewrite Hj. split; [done|cbn [String.length]; lia].
Qed.

Lemma LastIndex_drop s sub i :
  LastIndex s sub = Some i → HasPrefix (drop i s) sub = true.
Proof.
  revert i. induction s as [|c s IH]; intros i; cbn [LastIndex].
  - destruct (HasPrefix "" sub) eqn:Hp; [|done]. by intros [= <-].
  - destruct (LastIndex s sub) as [i'|].
    + intros [= <-]. cbn [drop]. by apply IH.
    + destruct (HasPrefix (String c s) sub) eqn:Hp; [|done]. by intros [= <-].
Qed.

Lemma LastIndex_split s sub i :
  LastIndex s sub = Some i → s = take i s +:+ sub +:+ drop (i + String.length sub) s.
Proof.
  intros Hp%LastIndex_drop%HasPrefix_split.
  rewrite string_drop_drop in Hp. rewrite <- Hp. by rewrite string_take_drop.
Qed.

Lemma HasSuffix_split s x :
  HasSuffix s x = true → s = take (String.length s - String.length x) s +:+ x.
Proof.
  unfold HasSuffix. intros Hs%bool_decide_eq_true.
  rewrite <- (string_take_drop (String.length s - String.length x) s) at 1.
  by rewrite Hs.
Qed.

(** A host that starts with an opening bracket and ends with a closing
    one is its inner part between the two brackets. *)
Lemma bracketed_split s :
  HasPrefix s "[" = true → HasSuffix s "]" = true →
  s = "[" +:+ take (String.length s - 2) (drop 1 s) +:+ "]".
Proof.
  intros Hp%HasPrefix_split Hs%HasSuffix_split. cbn [String.length drop] in Hp.
  destruct s as [|c s]; [done|]. rewrite string_app_cons, string_app_nil_l in Hp.
  injection Hp as ->. cbn [drop]. rewrite string_app_cons, string_app_nil_l. f_equal.
  destruct s as [|c s]; [done|]. cbn [String.length] in *.
  replace (S (S (String.length s)) - 2) with (String.length s) by lia.
  replace (S (S (String.length s)) - 1) with (S (String.length s)) in Hs by lia.
  cbn [take] in Hs. rewrite string_app_cons in Hs. by injection Hs.
Qed.

(** Where [splitHostPort] finds the host name inside [hostPort]: at its
    start or after an opening bracket, and before the port, if any. *)
Lemma splitHostPort_split hostPort :
  ∃ pre post,
    hostPort = pre +:+ (url.splitHostPort hostPort).1 +:+ post
    ∧ (pre = "" ∨ pre = "[")
    ∧ ((url.splitHostPort hostPort).2 ≠ "" →
       ∃ post', post = post' +:+ ":" +:+ (url.splitHostPort hostPort).2).
Proof.
  unfold url.splitHostPort.
  assert (∃ host port colonPort,
    (match LastIndex hostPort ":" with
     | Some colon =>
         if url.validOptionalPort (drop colon hostPort)
         then (take colon hostPort, drop (colon + 1) hostPort)
         else (hostPort, "")
     | None => (hostPort, "")
     end) = (host, port)
    ∧ hostPort = host +:+ colonPort
    ∧ (port ≠ "" → colonPort = ":" +:+ port)) as (host & port & cp & -> & Hh & Hp).
  { destruct (LastIndex hostPort ":") as [colon|] eqn:Hl.
    - destruct (url.validOptionalPort _).
      + do 3 eexists. split; [done|]. split; [|done].
        by apply LastIndex_split in Hl.
      + exists hostPort, "", "". by rewrite string_app_nil_r.
    - exists hostPort, "", "". by rewrite string_app_nil_r. }
  cbn [fst snd].
  destruct (HasPrefix host "[" && HasSuffix host "]") eqn:Hb.
  - apply andb_prop in Hb as [Hb1 Hb2].
    pose proof (bracketed_split _ Hb1 Hb2) as Hs.
    exists "[", ("]" +:+ cp). split; [|split; [by right|]].
    + rewrite Hh at 1. rewrite Hs at 1. by rewrite !string_app_assoc.
    + intros Hne. exists "]". by rewrite Hp.
  - exists "", cp. split; [done|split; [by left|]].
    intros Hne. exists "". by rewrite Hp.
Qed.

End string_facts.

(** ** What [URL.String] writes around the host *)

Section serialization_facts.
Import strings.
Implicit Types (u : url.URL) (h s t : string).

Lemma string_app_empty s t : s +:+ t = "" → s = "" ∧ t = "".
Proof. destruct s; [done|]. by rewrite string_app_cons. Qed.

(** A URL with a host and no opaque part is written as the text before the
    host, the escaped host and the text after it, and the two texts do not
    depend on the host. *)
Lemma EscapedPath_set_Host u h : url.EscapedPath (url.set_Host h u) = url.EscapedPath u.
Proof. by destruct u. Qed.

Lemma EscapedFragment_set_Host u h :
  url.EscapedFragment (url.set_Host h u) = url.EscapedFragment u.
Proof. by destruct u. Qed.

Ltac string_not_empty :=
  let He := fresh "He" in
  intros He;
  repeat match goal with
         | H : _ +:+ _ = "" |- _ => apply string_app_empty in H as [? ?]
         end; done.

Lemma String_set_Host u h :
  url.Opaque u = "" → h ≠ "" →
  url.String (url.set_Host h u)
  = url.before_host u +:+ url.escape h url.encodeHost +:+ url.after_host u.
Proof.
  intros Ho Hh. unfold url.String. cbn zeta.
  rewrite EscapedPath_set_Host, EscapedFragment_set_Host.
  unfold url.before_host, url.after_host, url.scheme_colon, url.query_fragment. cbn zeta.
  cbn [url.set_Host url.Scheme url.Opaque url.User url.Host url.ForceQuery url.RawQuery
       url.Fragment url.Path url.OmitHost].
  rewrite Ho. rewrite (bool_decide_eq_true_2 ("" = "")) by done.
  rewrite (bool_decide_eq_false_2 (h = "")) by done.
  cbn [negb]. rewrite !orb_true_r, !andb_false_r, !andb_true_r. cbn [orb andb].
  generalize (url.ForceQuery u || negb (bool_decide (url.RawQuery u = ""))).
  generalize (negb (bool_decide (url.Fragment u = ""))).
  generalize (url.EscapedPath u). intros p.
  generalize (negb (bool_decide (p = "")) && negb (HasPrefix p "/")).
  intros sl fr q.
  destruct (bool_decide (url.Scheme u = "")), (url.User u) as [ui|], sl;
    match goal with
    | |- context [bool_decide (?x = "")] =>
        rewrite (bool_decide_eq_false_2 (x = "")) by string_not_empty
    end; cbn [andb];
    destruct q, fr; rewrite ?string_app_assoc, ?string_app_nil_r, ?string_app_nil_l;
    reflexivity.
Qed.

(** A URL with an opaque part is written without its host. *)
Lemma String_opaque u h :
  url.Opaque u ≠ "" →
  url.String (url.set_Host h u)
  = url.scheme_colon u +:+ url.Opaque u +:+ url.query_fragment u.
Proof.
  intros Ho. destruct u as [scheme opaque user host path rawPath omit force query frag rawFrag].
  cbn [url.Opaque] in Ho.
  unfold url.String, url.set_Host, url.scheme_colon, url.query_fragment, url.EscapedFragment.
  cbn [url.Scheme url.Opaque url.User url.Host url.Path url.RawPath url.OmitHost
       url.ForceQuery url.RawQuery url.Fragment url.RawFragment].
  rewrite (bool_decide_eq_false_2 (opaque = "")) by done. cbn [negb].
  destruct (force || _), (negb (bool_decide (frag = ""))); rewrite ?string_app_assoc;
    rewrite ?string_app_nil_r; reflexivity.
Qed.

Lemma escape_app s t mode :
  url.escape (s +:+ t) mode = url.escape s mode +:+ url.escape t mode.
Proof.
  induction s as [|c s IH]; [done|]. rewrite string_app_cons. cbn [url.escape].
  rewrite IH. by repeat case_match.
Qed.

Lemma set_Host_same u : url.set_Host (url.Host u) u = u.
Proof. by destruct u. Qed.

(** A URL that [url.Parse] returns has a host or an opaque part, not
    both. *)
Lemma Parse_host_or_opaque rawURL u :
  url.Parse rawURL = inl u → url.Host u = "" ∨ url.Opaque u = "".
Proof.
  assert (∀ s v, url.parse s = inl v → url.Host v = "" ∨ url.Opaque v = "") as Hparse.
  { intros s v. unfold url.parse.
    repeat (case_match; try done); intros [= <-]; cbn; auto. }
  unfold url.Parse. destruct (Cut rawURL "#") as [[s frag] found].
  destruct (url.parse s) as [v|e] eqn:Hv; [|done].
  apply Hparse in Hv. case_bool_decide; [by intros [= <-]|].
  destruct (url.setFragment frag) as [[fragment rawFragment]|e]; [|done].
  intros [= <-]. exact Hv.
Qed.

Lemma Index_prefix s t : HasPrefix s t = true → Index s t = Some 0.
Proof. intros Hp. destruct s; cbn [Index]; by rewrite Hp. Qed.

(** Where the first occurrence of the host name is in the host: at its
    start, or else after the opening bracket; what follows it keeps the
    port. *)
Lemma Replace_1_hostname_first hostPort new :
  let hn := (url.splitHostPort hostPort).1 in
  let pre := if HasPrefix hostPort hn then "" else "[" in
  let post := drop (String.length pre + String.length hn) hostPort in
  hostPort = pre +:+ hn +:+ post
  ∧ ((url.splitHostPort hostPort).2 ≠ "" →
     ∃ post', post = post' +:+ ":" +:+ (url.splitHostPort hostPort).2)
  ∧ Replace_1 hostPort hn new = pre +:+ new +:+ post.
Proof.
  cbn zeta. destruct (splitHostPort_split hostPort) as (pre0 & post0 & Hh & Hpre & Hport).
  set (hn := (url.splitHostPort hostPort).1) in *.
  set (port := (url.splitHostPort hostPort).2) in *. clearbody hn port.
  destruct (HasPrefix hostPort hn) eqn:Hp.
  - rewrite !string_app_nil_l. cbn [String.length Nat.add].
    split; [by apply HasPrefix_split|]. split.
    + intros Hne. destruct (Hport Hne) as (post' & ->).
      rewrite Hh. rewrite <- string_app_assoc.
      rewrite string_drop_app_le by (rewrite string_length_app; lia).
      eexists. by rewrite string_app_assoc.
    + unfold Replace_1. case_decide as Heq; [subst new; by apply HasPrefix_split|].
      by rewrite (Index_prefix _ _ Hp).
  - destruct Hpre as [->| ->]; [by rewrite Hh, string_app_nil_l, HasPrefix_app in Hp|].
    rewrite string_app_cons, string_app_nil_l in Hh.
    assert (drop (String.length "[" + String.length hn) hostPort = post0) as ->.
    { rewrite Hh. cbn [String.length Nat.add drop]. apply string_drop_length_app. }
    rewrite !string_app_cons, !string_app_nil_l.
    split; [done|]. split; [done|].
    unfold Replace_1. case_decide as Heq; [by subst new|].
    assert (Index hostPort hn = Some 1) as ->.
    { destruct hostPort as [|c rest]; [done|]. injection Hh as -> ->.
      cbn [Index]. rewrite Hp. by rewrite (Index_prefix _ _ (HasPrefix_app hn post0)). }
    rewrite Hh. cbn [take drop Nat.add]. rewrite string_drop_length_app.
    by rewrite string_app_cons, string_app_nil_l.
Qed.

End serialization_facts.

(** ** replaceHostToIP: the claims *)

(** Every error of [url.Parse] is a [url.Error]; none is the error that
    [replaceHostToIP] builds for a missing address. *)
Lemma Parse_error_is_URLError rawURL err :
  url.Parse rawURL = inr err → ∃ u e, err = URLError "parse" u e.
Proof.
  unfold url.Parse. destruct (strings.Cut rawURL "#") as [[u frag] found].
  destruct (url.parse u) as [parsed|e]; [|intros [= <-]; eauto].
  case_bool_decide; [done|].
  destruct (url.setFragment frag) as [[fragment rawFragment]|e]; [done|].
  intros [= <-]; eauto.
Qed.

(** C5, amended.  For a URL that parses with a host and a non-empty new
    host, the rewriter returns, with a nil error, the URL as [URL.String]
    writes it with the new host in the place of the host name.  The host
    of the parsed URL is the host name, after an opening bracket if it
    does not start with the name, followed by a rest that ends with the
    port, if any; the parsed URL is written as the text before the host
    (scheme and user), the host with its name and its rest escaped, and
    the text after it (path, query and fragment); and the result is the
    same, but for the escaped new host in the place of the escaped
    name.  In particular "http://old-host:8080/path?x=1" with "10.0.0.5"
    gives "http://10.0.0.5:8080/path?x=1". *)
Theorem replaceHostToIP_replaces_hostname :
  (∀ (currentURL ipAddress : string) (parsedURL : url.URL),
     url.Parse currentURL = inl parsedURL → url.Host parsedURL ≠ "" → ipAddress ≠ "" →
     let host := url.Host parsedURL in
     let name := url.Hostname parsedURL in
     let pre := if strings.HasPrefix host name then "" else "[" in
     let post := strings.drop (String.length pre + String.length name) host in
     let before := url.before_host parsedURL in
     let after := url.after_host parsedURL in
     host = pre +:+ name +:+ post
     ∧ (url.Port parsedURL ≠ "" → ∃ post', post = post' +:+ ":" +:+ url.Port parsedURL)
     ∧ url.String parsedURL
       = before +:+ pre +:+ url.escape name url.encodeHost
         +:+ url.escape post url.encodeHost +:+ after
     ∧ replaceHostToIP currentURL ipAddress
       = (before +:+ pre +:+ url.escape ipAddress url.encodeHost
          +:+ url.escape post url.encodeHost +:+ after, None))
  ∧ replaceHostToIP "http://old-host:8080/path?x=1" "10.0.0.5"
    = ("http://10.0.0.5:8080/path?x=1", None).
Proof.
  split; [|vm_compute; reflexivity].
  intros currentURL ipAddress parsedURL Hparse Hhost Hip. cbn zeta.
  destruct (Replace_1_hostname_first (url.Host parsedURL) ipAddress)
    as (Hsplit & Hport & Hrep).
  destruct (Parse_host_or_opaque _ _ Hparse) as [?|Hopaque]; [done|].
  fold (url.Hostname parsedURL) in Hsplit, Hport, Hrep. fold (url.Port parsedURL) in Hport.
  set (pre := if strings.HasPrefix _ _ then "" else "[") in *.
  assert (url.escape pre url.encodeHost = pre) as Hpre
    by (subst pre; by destruct (strings.HasPrefix _ _)).
  split; [exact Hsplit|]. split; [exact Hport|]. split.
  - rewrite <- (set_Host_same parsedURL) at 1.
    rewrite String_set_Host by done. rewrite Hsplit at 1.
    by rewrite !escape_app, Hpre, !string_app_assoc.
  - unfold replaceHostToIP. rewrite Hparse, bool_decide_eq_false_2 by done.
    rewrite Hrep. f_equal. rewrite String_set_Host; [|done|].
    + by rewrite !escape_app, Hpre, !string_app_assoc.
    + intros He. apply string_app_empty in He as [_ He].
      by apply string_app_empty in He as [He _].
Qed.

Lemma replaceHostToIP_replaces_hostname_witness :
  url.Parse "http://user@[::1]:8080/a?b" =
    inl (url.mkURL "http" "" (Some (url.mkUserinfo "user" "" false)) "[::1]:8080"
           "/a" "" false false "b" "" "")
  ∧ "[::1]:8080" ≠ "" ∧ "10.0.0.5" ≠ ""
  ∧ replaceHostToIP "http://user@[::1]:8080/a?b" "10.0.0.5"
    = ("http://user@[10.0.0.5]:8080/a?b", None).
Proof.
  assert (url.Parse "http://user@[::1]:8080/a?b" =
    inl (url.mkURL "http" "" (Some (url.mkUserinfo "user" "" false)) "[::1]:8080"
           "/a" "" false false "b" "" "")) as Hparse by (vm_compute; reflexivity).
  assert ("[::1]:8080" ≠ "") as Hhost by discriminate.
  assert ("10.0.0.5" ≠ "") as Hip by discriminate.
  split; [exact Hparse|]. split; [exact Hhost|]. split; [exact Hip|].
  destruct (proj1 replaceHostToIP_replaces_hostname _ _ _ Hparse Hhost Hip)
    as (_ & _ & _ & Hres).
  rewrite Hres. vm_compute. reflexivity.
Defined.

(** C5, as claimed for every URL that parses, fails on URLs without a
    host.  "localhost:8080/path" and "mailto:bob@example.com" parse, with
    a scheme and an opaque part, and come back as they are: the new host
    is nowhere in the result.  "rel/path" parses as a path and comes back
    as "//10.0.0.5/rel/path", whose path is "/rel/path": a host is added
    and the path is not the one of the input. *)
Lemma replaceHostToIP_without_host_fails :
  url.Parse "localhost:8080/path"
  = inl (url.mkURL "localhost" "8080/path" None "" "" "" false false "" "" "")
  ∧ replaceHostToIP "localhost:8080/path" "10.0.0.5" = ("localhost:8080/path", None)
  ∧ replaceHostToIP "mailto:bob@example.com" "10.0.0.5" = ("mailto:bob@example.com", None)
  ∧ url.Parse "rel/path" = inl (url.mkURL "" "" None "" "rel/path" "" false false "" "" "")
  ∧ replaceHostToIP "rel/path" "10.0.0.5" = ("//10.0.0.5/rel/path", None)
  ∧ url.Parse "//10.0.0.5/rel/path"
    = inl (url.mkURL "" "" None "10.0.0.5" "/rel/path" "" false false "" "" "").
Proof. vm_compute. repeat split. Qed.

(** C6.  For a URL that parses, an empty new host makes the rewriter return
    the URL as it was given, with the missing-host error. *)
Theorem replaceHostToIP_empty_host (currentURL : string) (parsedURL : url.URL) :
  url.Parse currentURL = inl parsedURL →
  replaceHostToIP currentURL "" = (currentURL, Some missing_host_error).
Proof. intros Hparse. unfold replaceHostToIP. by rewrite Hparse. Qed.

Lemma replaceHostToIP_empty_host_witness :
  url.Parse "http://old-host/path" =
    inl (url.mkURL "http" "" None "old-host" "/path" "" false false "" "" "")
  ∧ replaceHostToIP "http://old-host/path" ""
    = ("http://old-host/path", Some missing_host_error).
Proof.
  assert (url.Parse "http://old-host/path" =
    inl (url.mkURL "http" "" None "old-host" "/path" "" false false "" "" ""))
    as Hparse by (vm_compute; reflexivity).
  split; [exact Hparse|].
  apply (replaceHostToIP_empty_host "http://old-host/path" _ Hparse).
Defined.

(** C7.  For an input that does not parse, the rewriter returns the input as
    it was given together with the parse error, whatever the new host. *)
Theorem replaceHostToIP_parse_error (currentURL ipAddress : string) (err : error) :
  url.Parse currentURL = inr err →
  replaceHostToIP currentURL ipAddress = (currentURL, Some err).
Proof. intros Hparse. unfold replaceHostToIP. by rewrite Hparse. Qed.

Lemma replaceHostToIP_parse_error_witness :
  url.Parse "http://[::1" =
    inr (URLError "parse" "http://[::1" (errorString "missing ']' in host"))
  ∧ replaceHostToIP "http://[::1" "10.0.0.5"
    = ("http://[::1",
       Some (URLError "parse" "http://[::1" (errorString "missing ']' in host"))).
Proof.
  assert (url.Parse "http://[::1" =
    inr (URLError "parse" "http://[::1" (errorString "missing ']' in host")))
    as Hparse by (vm_compute; reflexivity).
  split; [exact Hparse|].
  apply (replaceHostToIP_parse_error "http://[::1" "10.0.0.5" _ Hparse).
Defined.

(** C10.  The parse check comes first: an input that does not parse gets
    its parse error even when the new host is empty too, and the
    missing-host error is returned for no such input, whatever the new
    host. *)
Theorem replaceHostToIP_parse_check_first (currentURL : string) (err : error) :
  url.Parse currentURL = inr err →
  replaceHostToIP currentURL "" = (currentURL, Some err)
  ∧ err ≠ missing_host_error
  ∧ ∀ ipAddress, (replaceHostToIP currentURL ipAddress).2 ≠ Some missing_host_error.
Proof.
  intros Hparse.
  assert (err ≠ missing_host_error) as Hne
    by (destruct (Parse_error_is_URLError _ _ Hparse) as (u & e & ->); done).
  split; [unfold replaceHostToIP; by rewrite Hparse|]. split; [done|].
  intros ipAddress. unfold replaceHostToIP. rewrite Hparse. simpl. congruence.
Qed.

Lemma replaceHostToIP_parse_check_first_witness :
  url.Parse ":foo" = inr (URLError "parse" ":foo" (errorString "missing protocol scheme"))
  ∧ replaceHostToIP ":foo" ""
    = (":foo", Some (URLError "parse" ":foo" (errorString "missing protocol scheme"))).
Proof.
  assert (url.Parse ":foo" =
    inr (URLError "parse" ":foo" (errorString "missing protocol scheme")))
    as Hparse by (vm_compute; reflexivity).
  split; [exact Hparse|].
  apply (replaceHostToIP_parse_check_first ":foo" _ Hparse).
Defined.

(** ** SimulateRequest: the claims *)

Section emulator_facts.
Context {Context Logger : Type}.
Variable HTTP : string.
Implicit Types (t : testUtils Logger) (ctx : Context) (tc : models.TestCase).
Implicit Types (send : Context → models.TestCase → string → Logger → Z →
                       option models.HTTPResp * option error).

(** The calls of the HTTP variant, in order, and its result: the reply of
    the transport, handed back as it came. *)
Lemma SimulateRequest_HTTP_run t ctx timeout tc testSetID send :
  models.Kind tc = HTTP →
  run send (SimulateRequest HTTP t ctx timeout tc testSetID) =
    ([DebugCall (logger t) "Before simulating the request"
        [AnyTestCase "Test case" tc];
      DebugCall (logger t)
        ("the url of the testcase: " +:+ models.URL (models.HTTPReq tc)) [];
      SimulateHTTPCall ctx tc testSetID (logger t) (apiTimeout t);
      DebugCall (logger t) "After simulating the request"
        [AnyString "test case id" (models.Name tc)];
      DebugCall (logger t) "After GetResp of the request"
        [AnyString "test case id" (models.Name tc)]],
     send ctx tc testSetID (logger t) (apiTimeout t)).
Proof.
  intros Hkind. unfold SimulateRequest. rewrite decide_True by done.
  cbn. by destruct (send ctx tc testSetID (logger t) (apiTimeout t)).
Qed.

(** C8.  For a test case whose kind is not HTTP, [SimulateRequest] is done
    at once with a nil response and a nil error: it makes no call, whatever
    the context, the timeout and the test-set identifier. *)
Theorem SimulateRequest_not_HTTP t ctx timeout tc testSetID :
  models.Kind tc ≠ HTTP →
  SimulateRequest HTTP t ctx timeout tc testSetID = Done (None, None)
  ∧ ∀ send, run send (SimulateRequest HTTP t ctx timeout tc testSetID)
            = ([], (None, None)).
Proof.
  intros Hkind. unfold SimulateRequest. rewrite decide_False by done. done.
Qed.

(** C9, amended.  For a test case of kind HTTP, the bound handed to the
    HTTP transport is the [apiTimeout] the emulator was constructed with:
    the timeout argument of the call is not used, and two calls that
    differ in it only are the same program. *)
Theorem SimulateRequest_bound_is_apiTimeout t ctx timeout tc testSetID send :
  models.Kind tc = HTTP →
  transport_bounds (run send (SimulateRequest HTTP t ctx timeout tc testSetID)).1
    = [apiTimeout t]
  ∧ ∀ timeout', SimulateRequest HTTP t ctx timeout' tc testSetID
                = SimulateRequest HTTP t ctx timeout tc testSetID.
Proof.
  intros Hkind. split; [|done].
  by rewrite SimulateRequest_HTTP_run.
Qed.
End emulator_facts.

Lemma SimulateRequest_not_HTTP_witness :
  let tc := models.mkTestCase "Generic" "test-1" (models.mkHTTPReq "" "" ∅ "") in
  models.Kind tc ≠ "Http"
  ∧ SimulateRequest (Context:=unit) "Http" (NewTestUtils 5 tt) tt 10 tc "test-set-0"
    = Done (None, None).
Proof.
  assert (models.Kind (models.mkTestCase "Generic" "test-1" (models.mkHTTPReq "" "" ∅ ""))
          ≠ "Http") as Hkind by discriminate.
  split; [exact Hkind|].
  apply (SimulateRequest_not_HTTP (Context:=unit) "Http" (NewTestUtils 5 tt) tt 10 _
           "test-set-0" Hkind).
Defined.

Lemma SimulateRequest_bound_is_apiTimeout_witness :
  let tc := models.mkTestCase "Http" "test-1"
              (models.mkHTTPReq "GET" "http://localhost:8080/ping" ∅ "") in
  models.Kind tc = "Http"
  ∧ transport_bounds
      (run (λ _ _ _ _ _, (None, None))
         (SimulateRequest (Context:=unit) "Http" (NewTestUtils 5 tt) tt 10 tc "test-set-0")).1
    = [5%Z].
Proof.
  assert (models.Kind (models.mkTestCase "Http" "test-1"
            (models.mkHTTPReq "GET" "http://localhost:8080/ping" ∅ "")) = "Http")
    as Hkind by reflexivity.
  split; [exact Hkind|].
  apply (SimulateRequest_bound_is_apiTimeout (Context:=unit) "Http" (NewTestUtils 5 tt)
           tt 10 _ "test-set-0" (λ _ _ _ _ _, (None, None)) Hkind).
Defined.

(** C9 as claimed fails: an emulator constructed with a timeout of 5 hands
    the bound 5 to the transport when called with the timeout argument 10,
    and again when called with 20. *)
Lemma SimulateRequest_ignores_timeout_argument :
  let tc := models.mkTestCase "Http" "test-1"
              (models.mkHTTPReq "GET" "http://localhost:8080/ping" ∅ "") in
  let bounds timeout :=
    transport_bounds
      (run (λ _ _ _ _ _, (None, None))
         (SimulateRequest (Context:=unit) "Http" (NewTestUtils 5 tt) tt timeout tc
            "test-set-0")).1 in
  bounds 10%Z = [5%Z] ∧ bounds 10%Z ≠ [10%Z] ∧ bounds 20%Z = bounds 10%Z.
Proof. vm_compute. split; [done|]. split; [discriminate|done]. Qed.

(** * Further properties *)

(** ** LeftJoinNoise: when it panics, and what it leaves alone *)

Section merge_more.
Implicit Types (base override : option (gmap string (option (gmap string (list string))))).

Lemma object_override_ref base override s :
  object (index (override_ref override) s (heap_of base override))
         (inners (heap_of base override)) = value_scope override s.
Proof. apply (scope_override_ref base override s). Qed.

Lemma object_base_ref base override s :
  object (index (base_ref base) s (heap_of base override))
         (inners (heap_of base override)) = value_scope base s.
Proof. apply (scope_base_ref base override s). Qed.

Lemma value_scope_map v s : value_scope v s = default ∅ (scope_map v s).
Proof. done. Qed.

Lemma value_scope_nonempty v s : value_scope v s ≠ ∅ → is_Some (scope_map v s).
Proof. rewrite value_scope_map. destruct (scope_map v s); [eauto|done]. Qed.

(** The override's "header" map reads the same after the "body" loop. *)
Lemma object_override_after_body base override s m :
  object (index (override_ref override) s (heap_of base override))
         (<[scope_loc false "body" := m]> (inners (heap_of base override)))
  = value_scope override s.
Proof.
  rewrite object_insert, decide_False; [apply object_override_ref|].
  rewrite index_override_ref_value. case_match; [|done].
  by intros [= ?%symmetry%scope_loc_sides].
Qed.

(** X1.  The merge panics exactly when the override has a field in a scope for
    which the base has no map. *)
Theorem LeftJoinNoise_panics_exactly base override :
  (∃ msg h', LeftJoinNoise (base_ref base) (override_ref override) (heap_of base override)
             = Panicked msg h')
  ↔ (value_scope override "body" ≠ ∅ ∧ scope_map base "body" = None)
    ∨ (value_scope override "header" ≠ ∅ ∧ scope_map base "header" = None).
Proof.
  rewrite LeftJoinNoise_objects. unfold join_objects.
  rewrite !object_override_ref, !index_base_ref_value. fold (scope_map base "body").
  fold (scope_map base "header").
  destruct (decide (value_scope override "body" = ∅)) as [Ea|Ea].
  - rewrite object_override_ref.
    destruct (decide (value_scope override "header" = ∅)) as [Ec|Ec].
    + split; [by intros (? & ? & ?)|]. intros [[? _]|[? _]]; done.
    + destruct (scope_map base "header") as [mh|].
      * split; [by intros (? & ? & ?)|]. intros [[? _]|[_ ?]]; done.
      * split; [by right|eauto].
  - destruct (scope_map base "body") as [mb|].
    + rewrite object_override_after_body.
      destruct (decide (value_scope override "header" = ∅)) as [Ec|Ec].
      * split; [by intros (? & ? & ?)|]. intros [[_ ?]|[? _]]; done.
      * destruct (scope_map base "header") as [mh|].
        -- split; [by intros (? & ? & ?)|]. intros [[_ ?]|[_ ?]]; done.
        -- split; [by right|eauto].
    + split; [by left|eauto].
Qed.

(** X2.  A merge that panics on the "header" scope has already overwritten the
    base's "body" scope: the base is left half merged. *)
Theorem LeftJoinNoise_panic_after_body base override mb :
  scope_map base "body" = Some mb → scope_map base "header" = None →
  value_scope override "header" ≠ ∅ →
  ∃ h', LeftJoinNoise (base_ref base) (override_ref override) (heap_of base override)
          = Panicked "assignment to entry in nil map" h'
        ∧ scope (base_ref base) "body" h' = value_scope override "body" ∪ mb.
Proof.
  intros Hb Hh Hne.
  rewrite LeftJoinNoise_objects. unfold join_objects.
  rewrite !object_override_ref, !index_base_ref_value. fold (scope_map base "body").
  fold (scope_map base "header"). rewrite Hb, Hh.
  assert (value_scope base "body" = mb) as Hmb by (by rewrite value_scope_map, Hb).
  destruct (decide (value_scope override "body" = ∅)) as [Ea|Ea].
  - rewrite object_override_ref, decide_False by done.
    eexists. split; [done|].
    change (scope (base_ref base) "body" (heap_of base override) = value_scope override "body" ∪ mb).
    by rewrite scope_base_ref, Ea, (left_id_L ∅ (∪)).
  - rewrite object_override_after_body, decide_False by done.
    eexists. split; [done|].
    unfold scope, entries. cbn [inners].
    change (index ?g ?s (Heap (outers (heap_of base override)) ?o))
      with (index g s (heap_of base override)).
    rewrite index_base_ref_value. fold (scope_map base "body"). rewrite Hb.
    rewrite object_insert, decide_True by done.
    rewrite <- Hmb. f_equal. symmetry. rewrite <- (object_base_ref base override "body").
    rewrite index_base_ref_value. fold (scope_map base "body"). by rewrite Hb.
Qed.

Lemma LeftJoinNoise_panic_after_body_witness :
  scope_map samples.half_global "body" = Some {[ "id" := ["old"] ]}
  ∧ scope_map samples.half_global "header" = None
  ∧ value_scope samples.both_scopes "header" ≠ ∅
  ∧ ∃ h', LeftJoinNoise (base_ref samples.half_global) (override_ref samples.both_scopes)
            (heap_of samples.half_global samples.both_scopes)
          = Panicked "assignment to entry in nil map" h'
        ∧ scope (base_ref samples.half_global) "body" h'
          = value_scope samples.both_scopes "body" ∪ {[ "id" := ["old"] ]}.
Proof.
  assert (scope_map samples.half_global "body" = Some {[ "id" := ["old"] ]}) as Hb
    by (vm_compute; reflexivity).
  assert (scope_map samples.half_global "header" = None) as Hh by (vm_compute; reflexivity).
  assert (value_scope samples.both_scopes "header" ≠ ∅) as Hne.
  { intros He. apply (f_equal (.!! "Date")) in He. vm_compute in He. done. }
  split; [exact Hb|]. split; [exact Hh|]. split; [exact Hne|].
  apply (LeftJoinNoise_panic_after_body _ _ _ Hb Hh Hne).
Defined.

(** The merge writes to the base's two scope maps only, also when it
    panics. *)
Lemma LeftJoinNoise_frame_store (b o : GlobalNoise) h l :
  index b "body" h ≠ Some l → index b "header" h ≠ Some l →
  inners (store_after (LeftJoinNoise b o h)) !! l = inners h !! l
  ∧ outers (store_after (LeftJoinNoise b o h)) = outers h.
Proof.
  intros Hb Hh. rewrite LeftJoinNoise_objects. unfold join_objects.
  repeat case_match; simplify_eq; cbn [store_after inners outers];
    rewrite ?lookup_insert_ne by congruence; done.
Qed.

(** X3.  The merge never changes the override, nor any scope of the base other
    than "body" and "header", whether it returns or panics. *)
Theorem LeftJoinNoise_leaves_the_rest base override s :
  let h' := store_after (LeftJoinNoise (base_ref base) (override_ref override)
                           (heap_of base override)) in
  scope (override_ref override) s h' = value_scope override s
  ∧ (s ≠ "body" → s ≠ "header" → scope (base_ref base) s h' = value_scope base s).
Proof.
  assert (∀ g l,
    index (base_ref base) "body" (heap_of base override) ≠ Some l →
    index (base_ref base) "header" (heap_of base override) ≠ Some l →
    index g s (heap_of base override) = Some l ∨ index g s (heap_of base override) = None →
    scope g s (store_after (LeftJoinNoise (base_ref base) (override_ref override)
                              (heap_of base override)))
    = scope g s (heap_of base override)) as Hframe.
  { intros g l Hb Hh Hg.
    destruct (LeftJoinNoise_frame_store (base_ref base) (override_ref override) _ l Hb Hh)
      as [Hl Ho].
    unfold scope, entries, object.
    replace (index g s (store_after _)) with (index g s (heap_of base override))
      by (unfold index; by rewrite Ho).
    destruct Hg as [-> | ->]; [|done]. cbn [mbind option_bind]. by rewrite Hl. }
  cbn zeta. split.
  - rewrite <- (scope_override_ref base override s).
    apply (Hframe _ (scope_loc true s)).
    + intros ?%index_base_ref. by eapply scope_loc_sides.
    + intros ?%index_base_ref. by eapply scope_loc_sides.
    + rewrite index_override_ref_value. case_match; auto.
  - intros Hnb Hnh. rewrite <- (scope_base_ref base override s).
    apply (Hframe _ (scope_loc false s)).
    + intros Hi%index_base_ref%(inj (scope_loc false)). done.
    + intros Hi%index_base_ref%(inj (scope_loc false)). done.
    + rewrite index_base_ref_value. case_match; auto.
Qed.

(** X4.  Go visits the entries of the override's map in an order of its choice;
    whatever the order, the loop ends the same way. *)
Theorem range_order_irrelevant (noise tsNoise : GlobalNoise) s h kvs :
  kvs ≡ₚ map_to_list (scope tsNoise s h) →
  for_each kvs (assign_in noise s) h = range (index tsNoise s h) (assign_in noise s) h.
Proof.
  intros Hp. unfold range. fold (scope tsNoise s h).
  apply for_each_any_order; [|done].
  rewrite Hp. apply NoDup_fst_map_to_list.
Qed.

Lemma range_order_irrelevant_witness :
  let h := heap_of samples.global samples.both_scopes in
  let kvs := [("ts", ["\d+"]); ("id", [])] in
  kvs ≡ₚ map_to_list (scope (override_ref samples.both_scopes) "body" h)
  ∧ reverse kvs ≡ₚ map_to_list (scope (override_ref samples.both_scopes) "body" h)
  ∧ for_each kvs (assign_in (base_ref samples.global) "body") h
    = for_each (reverse kvs) (assign_in (base_ref samples.global) "body") h.
Proof.
  assert ([("ts", ["\d+"]); ("id", [])]
          ≡ₚ map_to_list (scope (override_ref samples.both_scopes) "body"
                            (heap_of samples.global samples.both_scopes))) as Hp.
  { apply NoDup_Permutation.
    - apply NoDup_cons. split; [|apply NoDup_singleton]. by intros [= ]%list_elem_of_singleton.
    - apply NoDup_map_to_list.
    - intros [k v]. rewrite elem_of_map_to_list.
      replace (scope _ "body" _) with ({[ "id" := []; "ts" := ["\d+"] ]} : gmap string (list string))
        by (vm_compute; reflexivity).
      rewrite !elem_of_cons, elem_of_nil.
      rewrite lookup_insert_Some, lookup_singleton_Some.
      split.
      + intros [[= -> ->]|[[= -> ->]|[]]]; [by right|by left].
      + intros [[<- <-]|[_ [<- <-]]]; auto. }
  split; [exact Hp|]. split; [by rewrite reverse_Permutation|].
  rewrite (range_order_irrelevant _ (override_ref samples.both_scopes) _ _ _ Hp).
  symmetry. apply range_order_irrelevant. by rewrite reverse_Permutation.
Defined.
End merge_more.

Lemma LeftJoinNoise_value_bindings_witness :
  scope_map samples.global "body" = Some {[ "id" := ["old"] ]}
  ∧ scope_map samples.global "header" = Some ∅
  ∧ ∃ h', LeftJoinNoise (base_ref samples.global) (override_ref samples.both_scopes)
            (heap_of samples.global samples.both_scopes)
          = Returned (base_ref samples.global) h'
        ∧ scope (base_ref samples.global) "body" h' !! "id" = Some []
        ∧ scope (base_ref samples.global) "header" h' !! "Date" = Some [].
Proof.
  assert (scope_map samples.global "body" = Some {[ "id" := ["old"] ]}) as Hb
    by (vm_compute; reflexivity).
  assert (scope_map samples.global "header" = Some ∅) as Hh by (vm_compute; reflexivity).
  split; [exact Hb|]. split; [exact Hh|].
  destruct (LeftJoinNoise_value_bindings samples.global samples.both_scopes _ _ Hb Hh)
    as (h' & Hrun & Hbind).
  exists h'. split; [exact Hrun|].
  rewrite !Hbind by auto. split; vm_compute; reflexivity.
Defined.

(** ** SimulateRequest: the reply of the transport *)

Section emulator_more.
Context {Context Logger : Type}.
Variable HTTP : string.
Implicit Types (t : testUtils Logger) (ctx : Context) (tc : models.TestCase).

(** X6.  For a test case of kind HTTP, [SimulateRequest] calls the transport
    once, with the context, the test case, the test-set identifier and the
    logger it was given, and returns the transport's reply as it came,
    response and error alike. *)
Theorem SimulateRequest_returns_reply t ctx timeout tc testSetID
    (send : Context → models.TestCase → string → Logger → Z →
            option models.HTTPResp * option error) :
  models.Kind tc = HTTP →
  let '(calls, reply) := run send (SimulateRequest HTTP t ctx timeout tc testSetID) in
  reply = send ctx tc testSetID (logger t) (apiTimeout t)
  ∧ transport_calls calls = [SimulateHTTPCall ctx tc testSetID (logger t) (apiTimeout t)].
Proof.
  intros Hkind. rewrite SimulateRequest_HTTP_run by done. done.
Qed.
End emulator_more.

Lemma SimulateRequest_returns_reply_witness :
  let tc := models.mkTestCase "Http" "test-1"
              (models.mkHTTPReq "GET" "http://localhost:8080/ping" ∅ "") in
  let send := λ (_ : unit) (_ : models.TestCase) (_ : string) (_ : unit) (_ : Z),
                (Some (models.mkHTTPResp 200 ∅ "pong"), None : option error) in
  models.Kind tc = "Http"
  ∧ (run send (SimulateRequest "Http" (NewTestUtils 5 tt) tt 10 tc "test-set-0")).2
    = (Some (models.mkHTTPResp 200 ∅ "pong"), None).
Proof.
  pose (tc := models.mkTestCase "Http" "test-1"
                (models.mkHTTPReq "GET" "http://localhost:8080/ping" ∅ "")).
  pose (send := λ (_ : unit) (_ : models.TestCase) (_ : string) (_ : unit) (_ : Z),
                  (Some (models.mkHTTPResp 200 ∅ "pong"), None : option error)).
  assert (models.Kind tc = "Http") as Hkind by reflexivity.
  split; [exact Hkind|].
  pose proof (SimulateRequest_returns_reply "Http" (NewTestUtils 5 tt) tt 10 tc
                "test-set-0" send Hkind) as H.
  destruct (run send _) as [calls reply]. by destruct H as [-> _].
Defined.

(** ** replaceHostToIP: hosts in brackets, and URLs without a host *)

Section rewrite_more.
Import strings.

Lemma Index_zero s sub : Index s sub = Some 0 → HasPrefix s sub = true.
Proof.
  destruct s as [|c s]; cbn [Index].
  - by destruct (HasPrefix "" sub).
  - destruct (HasPrefix (String c s) sub); [done|].
    by destruct (Index s sub).
Qed.

Lemma HasPrefix_cons_inv c s sub :
  HasPrefix (String c s) sub = true → sub = "" ∨ ∃ sub', sub = String c sub'.
Proof.
  destruct sub as [|c' sub']; [by left|]. cbn [HasPrefix].
  case_decide; [|done]. subst. eauto.
Qed.

(** X7.  A URL without a host.  If it has an opaque part, as
    "mailto:bob@example.com" and "localhost:8080/path" have, the rewriter
    returns the URL as [URL.String] writes it, scheme, opaque part, query
    and fragment: the new host is not in the result.  Otherwise the new
    host is added: the result is the scheme, "//", the user, the escaped
    new host, and then the path, after a "/" if it does not start with
    one, the query and the fragment; "rel/path" becomes
    "//10.0.0.5/rel/path". *)
Theorem replaceHostToIP_no_host (currentURL ipAddress : string) (parsedURL : url.URL) :
  url.Parse currentURL = inl parsedURL → url.Host parsedURL = "" → ipAddress ≠ "" →
  replaceHostToIP currentURL ipAddress
  = (if bool_decide (url.Opaque parsedURL = "")
     then url.before_host parsedURL +:+ url.escape ipAddress url.encodeHost
          +:+ url.after_host parsedURL
     else url.scheme_colon parsedURL +:+ url.Opaque parsedURL
          +:+ url.query_fragment parsedURL,
     None)
  ∧ (url.Opaque parsedURL ≠ "" →
     (replaceHostToIP currentURL ipAddress).1 = url.String parsedURL).
Proof.
  intros Hparse Hhost Hip.
  assert (replaceHostToIP currentURL ipAddress
          = (url.String (url.set_Host ipAddress parsedURL), None)) as ->.
  { unfold replaceHostToIP. rewrite Hparse, bool_decide_eq_false_2 by done.
    unfold url.Hostname. rewrite Hhost. do 2 f_equal.
    unfold Replace_1. cbn. case_decide; [done|]. by rewrite string_app_nil_r. }
  cbn [fst]. case_bool_decide as Ho.
  - split; [|done]. by rewrite String_set_Host.
  - rewrite String_opaque by done. split; [done|]. intros _.
    rewrite <- (set_Host_same parsedURL) at 4. by rewrite String_opaque.
Qed.

Lemma replaceHostToIP_no_host_witness :
  url.Parse "mailto:bob@example.com"
  = inl (url.mkURL "mailto" "bob@example.com" None "" "" "" false false "" "" "")
  ∧ url.Parse "rel/path?x=1" = inl (url.mkURL "" "" None "" "rel/path" "" false false "x=1" "" "")
  ∧ "10.0.0.5" ≠ ""
  ∧ replaceHostToIP "mailto:bob@example.com" "10.0.0.5" = ("mailto:bob@example.com", None)
  ∧ replaceHostToIP "rel/path?x=1" "10.0.0.5" = ("//10.0.0.5/rel/path?x=1", None).
Proof.
  assert (url.Parse "mailto:bob@example.com"
          = inl (url.mkURL "mailto" "bob@example.com" None "" "" "" false false "" "" ""))
    as Hopaque by (vm_compute; reflexivity).
  assert (url.Parse "rel/path?x=1"
          = inl (url.mkURL "" "" None "" "rel/path" "" false false "x=1" "" ""))
    as Hrel by (vm_compute; reflexivity).
  assert ("10.0.0.5" ≠ "") as Hip by discriminate.
  split; [exact Hopaque|]. split; [exact Hrel|]. split; [exact Hip|]. split.
  - rewrite (proj1 (replaceHostToIP_no_host _ _ _ Hopaque eq_refl Hip)).
    vm_compute. reflexivity.
  - rewrite (proj1 (replaceHostToIP_no_host _ _ _ Hrel eq_refl Hip)).
    vm_compute. reflexivity.
Defined.

(** X8.  In a host written in brackets, as IP literals are, the new host takes
    the place of the host name inside the brackets, and the brackets and
    the port stay: "[::1]:8080" becomes "[10.0.0.5]:8080". *)
Theorem replaceHostToIP_keeps_brackets (currentURL ipAddress literal rest : string)
    (parsedURL : url.URL) :
  url.Parse currentURL = inl parsedURL →
  url.Host parsedURL = "[" +:+ literal +:+ "]" +:+ rest →
  url.Hostname parsedURL = literal →
  literal ≠ "" → HasPrefix literal "[" = false → ipAddress ≠ "" →
  replaceHostToIP currentURL ipAddress
  = (url.String (url.set_Host ("[" +:+ ipAddress +:+ "]" +:+ rest) parsedURL), None).
Proof.
  intros Hparse Hhost Hname Hne Hbr Hip. unfold replaceHostToIP.
  rewrite Hparse, bool_decide_eq_false_2 by done. rewrite Hname, Hhost.
  do 3 f_equal. unfold Replace_1. case_decide as Heq; [by subst|].
  destruct (Index_first "[" literal ("]" +:+ rest)) as (j & Hj & Hle).
  rewrite Hj. destruct j as [|[|j]]; [|clear Hle|cbn in Hle; lia].
  - apply Index_zero in Hj. rewrite string_app_cons in Hj.
    apply HasPrefix_cons_inv in Hj as [->|[sub' ->]]; [done|].
    cbn [HasPrefix] in Hbr. rewrite decide_True in Hbr by done. by destruct sub'.
  - rewrite string_app_cons, string_app_nil_l. cbn [take drop Nat.add].
    by rewrite string_drop_length_app.
Qed.

Lemma replaceHostToIP_keeps_brackets_witness :
  url.Parse "http://[::1]:8080/x" =
    inl (url.mkURL "http" "" None "[::1]:8080" "/x" "" false false "" "" "")
  ∧ replaceHostToIP "http://[::1]:8080/x" "10.0.0.5" = ("http://[10.0.0.5]:8080/x", None).
Proof.
  assert (url.Parse "http://[::1]:8080/x" =
    inl (url.mkURL "http" "" None "[::1]:8080" "/x" "" false false "" "" "")) as Hparse
    by (vm_compute; reflexivity).
  split; [exact Hparse|].
  rewrite (replaceHostToIP_keeps_brackets "http://[::1]:8080/x" "10.0.0.5" "::1" ":8080"
             _ Hparse eq_refl eq_refl); [|done..].
  vm_compute. reflexivity.
Defined.
End rewrite_more.

(** ** ASCII text: lower case and white space *)

Section text_facts.
Import strings text.
Implicit Types (s lead trail : string) (c : ascii) (U : unicode.tables).

Lemma lower_byte c :
  let l := if byte_in "A" "Z" c then ascii_of_N (N_of_ascii c + 32) else c in
  asciiSpace l = asciiSpace c ∧ is_ascii l = is_ascii c
  ∧ (if byte_in "A" "Z" l then ascii_of_N (N_of_ascii l + 32) else l) = l.
Proof. destruct c as [[] [] [] [] [] [] [] []]; vm_compute; done. Qed.

Lemma asciiSpace_is_ascii c : asciiSpace c = true → is_ascii c = true.
Proof. destruct c as [[] [] [] [] [] [] [] []]; vm_compute; done. Qed.

Lemma asciiSpace_lower c : asciiSpace c = true → byte_in "A" "Z" c = false.
Proof. destruct c as [[] [] [] [] [] [] [] []]; vm_compute; done. Qed.

Lemma isASCII_app s1 s2 : isASCII (s1 +:+ s2) = isASCII s1 && isASCII s2.
Proof.
  induction s1 as [|c s1 IH]; [done|]. rewrite string_app_cons. cbn [isASCII].
  by rewrite IH, andb_assoc.
Qed.

Lemma all_space_isASCII s : all_space s = true → isASCII s = true.
Proof.
  induction s as [|c s IH]; [done|]. cbn [all_space isASCII].
  intros [Hc Hs]%andb_prop. by rewrite (asciiSpace_is_ascii _ Hc), IH.
Qed.

Lemma ToLower_app s1 s2 :
  strings.ToLower (s1 +:+ s2) = strings.ToLower s1 +:+ strings.ToLower s2.
Proof.
  induction s1 as [|c s1 IH]; [done|]. rewrite string_app_cons. cbn [strings.ToLower].
  by rewrite IH.
Qed.

Lemma ToLower_all_space s : all_space s = true → strings.ToLower s = s.
Proof.
  induction s as [|c s IH]; [done|]. cbn [all_space strings.ToLower].
  intros [Hc Hs]%andb_prop. by rewrite (asciiSpace_lower _ Hc), IH.
Qed.

Lemma ToLower_isASCII s : isASCII (strings.ToLower s) = isASCII s.
Proof.
  induction s as [|c s IH]; [done|]. cbn [strings.ToLower isASCII].
  destruct (lower_byte c) as (_ & -> & _). by rewrite IH.
Qed.

Lemma ToLower_twice s : strings.ToLower (strings.ToLower s) = strings.ToLower s.
Proof.
  induction s as [|c s IH]; [done|]. cbn [strings.ToLower].
  destruct (lower_byte c) as (_ & _ & ->). by rewrite IH.
Qed.

Lemma ToLower_ascii U s : isASCII s = true → ToLower U s = strings.ToLower s.
Proof. unfold ToLower. by intros ->. Qed.

Lemma trimLeftASCII_isASCII s : isASCII s = true → isASCII (trimLeftASCII s) = true.
Proof.
  induction s as [|c s IH]; [done|]. cbn [trimLeftASCII].
  destruct (asciiSpace c); [|done]. cbn [isASCII]. intros [_ ?]%andb_prop. auto.
Qed.

Lemma trimRightASCII_isASCII s : isASCII s = true → isASCII (trimRightASCII s) = true.
Proof.
  induction s as [|c s IH]; [done|]. cbn [trimRightASCII isASCII].
  intros [Hc Hs]%andb_prop. case_match; [done|]. cbn [isASCII]. by rewrite Hc, IH.
Qed.

Lemma first_byte_ascii s : isASCII s = true → first_byte_not_ascii s = false.
Proof. destruct s as [|c s]; [done|]. cbn. by intros [-> _]%andb_prop. Qed.

Lemma last_byte_ascii s : isASCII s = true → last_byte_not_ascii s = false.
Proof.
  induction s as [|c s IH]; [done|]. cbn [isASCII]. intros [Hc Hs]%andb_prop.
  cbn [last_byte_not_ascii]. destruct s; [by rewrite Hc|auto].
Qed.

(** On ASCII text [TrimSpace] never consults package [unicode]. *)
Lemma TrimSpace_ascii U s :
  isASCII s = true → TrimSpace U s = trimRightASCII (trimLeftASCII s).
Proof.
  intros Hs. unfold TrimSpace.
  rewrite first_byte_ascii by by apply trimLeftASCII_isASCII.
  by rewrite last_byte_ascii by by apply trimRightASCII_isASCII, trimLeftASCII_isASCII.
Qed.

Lemma trimLeftASCII_lead lead s :
  all_space lead = true → trimLeftASCII (lead +:+ s) = trimLeftASCII s.
Proof.
  induction lead as [|c lead IH]; [done|]. cbn [all_space].
  intros [Hc Hs]%andb_prop. rewrite string_app_cons. cbn [trimLeftASCII].
  rewrite Hc. auto.
Qed.

Lemma trimRightASCII_all_space s : all_space s = true → trimRightASCII s = "".
Proof.
  induction s as [|c s IH]; [done|]. cbn [all_space trimRightASCII].
  intros [Hc Hs]%andb_prop. by rewrite IH, Hc.
Qed.

Lemma trimRightASCII_trail s trail :
  all_space trail = true → trimRightASCII (s +:+ trail) = trimRightASCII s.
Proof.
  intros Ht. induction s as [|c s IH].
  - rewrite string_app_nil_l. by apply trimRightASCII_all_space.
  - rewrite string_app_cons. cbn [trimRightASCII]. by rewrite IH.
Qed.

Lemma trimLeftASCII_all_space s : all_space s = true → trimLeftASCII s = "".
Proof.
  induction s as [|c s IH]; [done|]. cbn [all_space trimLeftASCII].
  intros [Hc Hs]%andb_prop. rewrite Hc. auto.
Qed.

Lemma trimLeftASCII_app s1 s2 :
  trimLeftASCII (s1 +:+ s2)
  = if all_space s1 then trimLeftASCII s2 else trimLeftASCII s1 +:+ s2.
Proof.
  induction s1 as [|c s1 IH]; [done|]. rewrite string_app_cons.
  cbn [trimLeftASCII all_space]. destruct (asciiSpace c); [apply IH|done].
Qed.

(** White space around ASCII text does not count. *)
Lemma TrimSpace_blanks U lead s trail :
  isASCII s = true → all_space lead = true → all_space trail = true →
  TrimSpace U (lead +:+ s +:+ trail) = TrimSpace U s.
Proof.
  intros Hs Hl Ht. rewrite !TrimSpace_ascii; [|done|].
  - rewrite trimLeftASCII_lead by done. rewrite trimLeftASCII_app.
    destruct (all_space s) eqn:Hsp.
    + rewrite trimLeftASCII_all_space by done.
      by rewrite (trimLeftASCII_all_space s).
    + by apply trimRightASCII_trail.
  - rewrite !isASCII_app, Hs. by rewrite !all_space_isASCII.
Qed.

Lemma ToLower_trimLeftASCII s :
  strings.ToLower (trimLeftASCII s) = trimLeftASCII (strings.ToLower s).
Proof.
  induction s as [|c s IH]; [done|]. cbn [trimLeftASCII strings.ToLower].
  destruct (lower_byte c) as (-> & _ & _).
  destruct (asciiSpace c); [done|]. done.
Qed.

Lemma ToLower_empty s : strings.ToLower s = "" ↔ s = "".
Proof. by destruct s. Qed.

Lemma ToLower_trimRightASCII s :
  strings.ToLower (trimRightASCII s) = trimRightASCII (strings.ToLower s).
Proof.
  induction s as [|c s IH]; [done|]. cbn [trimRightASCII strings.ToLower].
  destruct (lower_byte c) as (-> & _ & _). rewrite <- IH.
  destruct (trimRightASCII s) eqn:Ht; cbn [strings.ToLower];
    rewrite ?bool_decide_eq_true_2, ?bool_decide_eq_false_2 by done; cbn [andb];
    [by destruct (asciiSpace c)|done].
Qed.

(** On ASCII text, lower-casing and trimming commute. *)
Lemma ToLower_TrimSpace U s :
  isASCII s = true → ToLower U (TrimSpace U s) = TrimSpace U (ToLower U s).
Proof.
  intros Hs. rewrite (ToLower_ascii U s) by done.
  rewrite !TrimSpace_ascii by (by rewrite ?ToLower_isASCII).
  rewrite ToLower_ascii by by apply trimRightASCII_isASCII, trimLeftASCII_isASCII.
  by rewrite ToLower_trimRightASCII, ToLower_trimLeftASCII.
Qed.

Lemma trimRightASCII_keeps s1 s2 :
  trimRightASCII s1 = s1 → ∃ t, trimRightASCII (s1 +:+ s2) = s1 +:+ t.
Proof.
  induction s1 as [|c s1 IH]; [by exists (trimRightASCII s2)|].
  cbn [trimRightASCII]. intros Hk. rewrite string_app_cons. cbn [trimRightASCII].
  destruct (bool_decide (trimRightASCII s1 = "") && asciiSpace c) eqn:Hc; [done|].
  injection Hk as Hk. destruct (IH Hk) as (t & ->).
  exists t. rewrite Hk in Hc.
  destruct s1 as [|c' s1].
  - rewrite bool_decide_eq_true_2 in Hc by done. cbn [andb] in Hc.
    by rewrite Hc, andb_false_r.
  - rewrite string_app_cons. by rewrite bool_decide_eq_false_2.
Qed.

Lemma HasPrefix_trans s p q :
  HasPrefix s p = true → HasPrefix p q = true → HasPrefix s q = true.
Proof.
  intros Hp%HasPrefix_split Hq%HasPrefix_split.
  rewrite Hp, Hq, string_app_assoc. apply HasPrefix_app.
Qed.
End text_facts.

(** ** Package utils: Keys, FetchHomeDirectory, FindDockerCmd *)

Section utils_facts.
Import strings text utils.
Implicit Types (U : unicode.tables) (cmd s lead trail : string).

Lemma Keys_visiting_fst (kvs : list (string * list string)) acc :
  foldl (λ keys kv, (keys ++ [kv.1])%list) acc kvs = (acc ++ kvs.*1)%list.
Proof.
  revert acc. induction kvs as [|kv kvs IH]; intros acc; simpl.
  - by rewrite (right_id_L [] app).
  - rewrite IH. by rewrite <- (assoc_L app).
Qed.

(** X9.  Whatever the order in which Go visits the map, [Keys] returns every key
    of the map, each once, and nothing else. *)
Theorem Keys_each_key_once (m : gmap string (list string)) kvs :
  kvs ≡ₚ map_to_list m →
  NoDup (Keys_visiting kvs)
  ∧ (∀ k, k ∈ Keys_visiting kvs ↔ is_Some (m !! k))
  ∧ List.length (Keys_visiting kvs) = size m.
Proof.
  intros Hp. unfold Keys_visiting. rewrite Keys_visiting_fst. cbn [app].
  split; [|split].
  - rewrite Hp. apply NoDup_fst_map_to_list.
  - intros k. rewrite Hp, list_elem_of_fmap. split.
    + intros ([k' v] & -> & Hkv%elem_of_map_to_list). eauto.
    + intros [v Hv]. exists (k, v). split; [done|]. by apply elem_of_map_to_list.
  - rewrite length_fmap, Hp. apply length_map_to_list.
Qed.

Lemma Keys_each_key_once_witness :
  let m : gmap string (list string) := {[ "Accept" := ["*/*"]; "Host" := [] ]} in
  map_to_list m ≡ₚ map_to_list m
  ∧ NoDup (Keys m) ∧ List.length (Keys m) = 2.
Proof.
  intros m.
  assert (map_to_list m ≡ₚ map_to_list m) as Hp by reflexivity.
  split; [exact Hp|].
  destruct (Keys_each_key_once m _ Hp) as (Hnd & _ & Hlen).
  split; [exact Hnd|]. unfold Keys. rewrite Hlen. vm_compute. reflexivity.
Defined.

(** X10.  The old configuration folder is the new one with "-config" appended,
    under the same home, on every platform and in every environment. *)
Theorem FetchHomeDirectory_old_and_new (GOOS : string) (Getenv : string → string) :
  FetchHomeDirectory GOOS Getenv false = FetchHomeDirectory GOOS Getenv true +:+ "-config".
Proof.
  unfold FetchHomeDirectory. cbn zeta.
  case_bool_decide; [case_bool_decide|]; rewrite !string_app_assoc; reflexivity.
Qed.

(** X11.  How the trimmed, lower-cased command decides the kind: a compose
    prefix wins over a plain docker prefix, and the command is native
    exactly when it starts with neither "docker" nor "sudo docker". *)
Theorem FindDockerCmd_kinds U cmd :
  let cmdLower := TrimSpace U (ToLower U cmd) in
  let compose := HasPrefix cmdLower "docker-compose" || HasPrefix cmdLower "sudo docker-compose"
                 || HasPrefix cmdLower "docker compose"
                 || HasPrefix cmdLower "sudo docker compose" in
  let docker := HasPrefix cmdLower "docker" || HasPrefix cmdLower "sudo docker" in
  (FindDockerCmd U cmd = DockerCompose ↔ compose = true)
  ∧ (FindDockerCmd U cmd = Docker ↔ docker = true ∧ compose = false)
  ∧ (FindDockerCmd U cmd = Native ↔ docker = false).
Proof.
  cbn zeta. unfold FindDockerCmd. cbn [existsb].
  set (cmdLower := TrimSpace U (ToLower U cmd)).
  assert (∀ p q, HasPrefix p q = true → HasPrefix cmdLower p = true →
                 HasPrefix cmdLower q = true) as Htrans
    by (intros p q Hq Hp; by eapply HasPrefix_trans).
  pose proof (Htrans "docker-compose" "docker" eq_refl) as H1.
  pose proof (Htrans "docker compose" "docker" eq_refl) as H2.
  pose proof (Htrans "sudo docker-compose" "sudo docker" eq_refl) as H3.
  pose proof (Htrans "sudo docker compose" "sudo docker" eq_refl) as H4.
  destruct (HasPrefix cmdLower "docker-compose"), (HasPrefix cmdLower "sudo docker-compose"),
    (HasPrefix cmdLower "docker compose"), (HasPrefix cmdLower "sudo docker compose");
    destruct (HasPrefix cmdLower "docker"), (HasPrefix cmdLower "sudo docker");
    cbn; unfold DockerCompose, Docker, Native;
    try (specialize (H1 eq_refl)); try (specialize (H2 eq_refl));
    try (specialize (H3 eq_refl)); try (specialize (H4 eq_refl));
    try discriminate; (repeat split; try done; try (by intros []); intros; try done).
Qed.

(** X12.  For an ASCII command, letter case and white space around it do not
    count. *)
Theorem FindDockerCmd_case_and_blanks U cmd lead trail :
  isASCII cmd = true → all_space lead = true → all_space trail = true →
  FindDockerCmd U (lead +:+ cmd +:+ trail) = FindDockerCmd U cmd
  ∧ FindDockerCmd U (strings.ToLower cmd) = FindDockerCmd U cmd.
Proof.
  intros Hc Hl Ht.
  assert (isASCII (lead +:+ cmd +:+ trail) = true) as Hall
    by (by rewrite !isASCII_app, Hc, !all_space_isASCII).
  unfold FindDockerCmd. cbn zeta.
  rewrite !ToLower_ascii by (by rewrite ?ToLower_isASCII).
  rewrite ToLower_twice, !ToLower_app, (ToLower_all_space lead), (ToLower_all_space trail)
    by done.
  by rewrite TrimSpace_blanks by (by rewrite ?ToLower_isASCII).
Qed.

Lemma FindDockerCmd_case_and_blanks_witness :
  isASCII "Docker-Compose up" = true ∧ all_space "  " = true ∧ all_space " " = true
  ∧ ∀ U, FindDockerCmd U ("  " +:+ "Docker-Compose up" +:+ " ")
         = FindDockerCmd U "Docker-Compose up".
Proof.
  assert (isASCII "Docker-Compose up" = true) as Hc by reflexivity.
  assert (all_space "  " = true) as Hl by reflexivity.
  assert (all_space " " = true) as Ht by reflexivity.
  split; [exact Hc|]. split; [exact Hl|]. split; [exact Ht|].
  intros U. apply (FindDockerCmd_case_and_blanks U _ _ _ Hc Hl Ht).
Defined.

(** X13.  The patterns are prefixes, not words: an ASCII command that begins, in
    any letter case, with a compose pattern is a compose command whatever
    follows, and one that begins with "docker" or "sudo docker" is never
    native. *)
Theorem FindDockerCmd_prefix_only U p rest :
  isASCII p = true → isASCII rest = true →
  (strings.ToLower p ∈ ["docker-compose"; "sudo docker-compose"; "docker compose";
                        "sudo docker compose"]
   → FindDockerCmd U (p +:+ rest) = DockerCompose)
  ∧ (strings.ToLower p ∈ ["docker"; "sudo docker"]
     → FindDockerCmd U (p +:+ rest) ≠ Native).
Proof.
  intros Hp Hr.
  assert (∀ q, strings.ToLower p = q → trimLeftASCII q = q → trimRightASCII q = q →
               HasPrefix (TrimSpace U (ToLower U (p +:+ rest))) q = true) as Hq.
  { intros q Hlow Hleft Hright.
    rewrite ToLower_ascii by (by rewrite isASCII_app, Hp, Hr).
    rewrite TrimSpace_ascii by (by rewrite ToLower_isASCII, isASCII_app, Hp, Hr).
    rewrite ToLower_app, Hlow, trimLeftASCII_app.
    destruct (all_space q) eqn:Hsp.
    - rewrite trimLeftASCII_all_space in Hleft by done. rewrite <- Hleft.
      apply (HasPrefix_app "").
    - rewrite Hleft. destruct (trimRightASCII_keeps q (strings.ToLower rest) Hright) as (t & ->).
      apply HasPrefix_app. }
  split; intros Hin; rewrite !elem_of_cons, elem_of_nil in Hin;
    unfold FindDockerCmd; cbn [existsb].
  - destruct Hin as [H|[H|[H|[H|[]]]]]; rewrite (Hq _ H eq_refl eq_refl);
      by rewrite ?orb_true_r.
  - destruct (_ || _); [done|].
    destruct Hin as [H|[H|[]]]; rewrite (Hq _ H eq_refl eq_refl);
      by rewrite ?orb_true_r.
Qed.

Lemma FindDockerCmd_prefix_only_witness :
  isASCII "Docker-Compose" = true ∧ isASCII "r up" = true
  ∧ ∀ U, FindDockerCmd U ("Docker-Compose" +:+ "r up") = DockerCompose.
Proof.
  assert (isASCII "Docker-Compose" = true) as Hp by reflexivity.
  assert (isASCII "r up" = true) as Hr by reflexivity.
  split; [exact Hp|]. split; [exact Hr|]. intros U.
  apply (proj1 (FindDockerCmd_prefix_only U _ _ Hp Hr)).
  vm_compute. apply list_elem_of_here.
Defined.
End utils_facts.

(** ** Package utils: AskForConfirmation *)

Section confirmation_facts.
Import strings text utils.
Implicit Types (U : unicode.tables) (s input line : string).
Implicit Types (reads : list (string * option error)).

Lemma AskForConfirmation_read U s response reads :
  AskForConfirmation U s ((response, None) :: reads)
  = match answer_of U response with
    | Some b => ([s +:+ " [y/n]: "], Some (b, None))
    | None => ((s +:+ " [y/n]: ") :: (AskForConfirmation U s reads).1,
               (AskForConfirmation U s reads).2)
    end.
Proof.
  cbn [AskForConfirmation]. unfold answer_of.
  destruct (_ || _); [done|]. destruct (_ || _); [done|].
  by destruct (AskForConfirmation U s reads).
Qed.

Lemma answer_of_ascii U lead a trail :
  isASCII a = true → all_space lead = true → all_space trail = true →
  answer_of U (lead +:+ a +:+ trail) = answer_of U (strings.ToLower a).
Proof.
  intros Ha Hl Ht. unfold answer_of. cbn zeta.
  rewrite TrimSpace_blanks by done.
  rewrite !ToLower_TrimSpace by (by rewrite ?ToLower_isASCII).
  rewrite !ToLower_ascii by (by rewrite ?ToLower_isASCII).
  by rewrite ToLower_twice.
Qed.

(** X14.  As the comment of the function says: "y", "Y", "yes", "YES" and "Yes"
    all confirm.  An ASCII line that is "y" or "yes" in any letter case,
    with any white space around it, is a yes; "n" or "no", a no; neither
    asks again. *)
Theorem AskForConfirmation_answer U s lead a trail reads :
  isASCII a = true → all_space lead = true → all_space trail = true →
  (strings.ToLower a ∈ ["y"; "yes"] →
   AskForConfirmation U s ((lead +:+ a +:+ trail, None) :: reads)
   = ([s +:+ " [y/n]: "], Some (true, None)))
  ∧ (strings.ToLower a ∈ ["n"; "no"] →
     AskForConfirmation U s ((lead +:+ a +:+ trail, None) :: reads)
     = ([s +:+ " [y/n]: "], Some (false, None))).
Proof.
  intros Ha Hl Ht. rewrite AskForConfirmation_read, answer_of_ascii by done.
  split; intros Hin; rewrite !elem_of_cons, elem_of_nil in Hin;
    destruct Hin as [->|[->|[]]]; reflexivity.
Qed.

Lemma AskForConfirmation_answer_witness :
  isASCII "YES" = true ∧ all_space " " = true ∧ all_space (String newline "") = true
  ∧ ∀ U, AskForConfirmation U "Overwrite?" [(" " +:+ "YES" +:+ String newline "", None)]
         = (["Overwrite? [y/n]: "], Some (true, None)).
Proof.
  assert (isASCII "YES" = true) as Ha by reflexivity.
  assert (all_space " " = true) as Hl by reflexivity.
  assert (all_space (String newline "") = true) as Ht by reflexivity.
  split; [exact Ha|]. split; [exact Hl|]. split; [exact Ht|]. intros U.
  rewrite (proj1 (AskForConfirmation_answer U "Overwrite?" _ _ _ [] Ha Hl Ht));
    [reflexivity|].
  vm_compute. apply list_elem_of_further, list_elem_of_here.
Defined.

Lemma reads_of_no_newline input line :
  CountByte input newline = 0 → reads_of input line = [(line +:+ input, Some EOF)].
Proof.
  revert line. induction input as [|c input IH]; intros line; cbn [CountByte reads_of].
  - by rewrite string_app_nil_r.
  - case_decide; [done|]. intros Hn. rewrite bool_decide_eq_false_2 by done.
    rewrite IH by done. by rewrite string_app_assoc.
Qed.

(** X15.  An answer that is not ended by a line feed is not taken: on an input
    without a line feed, be it "yes", the function prints its prompt once
    and returns false with [io.EOF]. *)
Theorem AskForConfirmation_unterminated U s input :
  CountByte input newline = 0 →
  AskForConfirmation U s (reads_of input "") = ([s +:+ " [y/n]: "], Some (false, Some EOF)).
Proof. intros Hn. by rewrite reads_of_no_newline. Qed.

Lemma AskForConfirmation_unterminated_witness :
  CountByte "yes" newline = 0
  ∧ ∀ U, AskForConfirmation U "Overwrite?" (reads_of "yes" "")
         = (["Overwrite? [y/n]: "], Some (false, Some EOF)).
Proof.
  assert (CountByte "yes" newline = 0) as Hn by reflexivity.
  split; [exact Hn|]. intros U.
  rewrite (AskForConfirmation_unterminated U "Overwrite?" "yes" Hn). reflexivity.
Defined.

(** X16.  On an input that ends the function always returns: with an answer
    and a nil error, or with false and [io.EOF]; it is never left
    waiting. *)
Theorem AskForConfirmation_ends U s input :
  let result := (AskForConfirmation U s (reads_of input "")).2 in
  result = Some (false, Some EOF) ∨ ∃ b, result = Some (b, None).
Proof.
  cbn zeta. generalize "". induction input as [|c input IH]; intros line.
  - by left.
  - cbn [reads_of]. case_bool_decide; [|apply IH].
    rewrite AskForConfirmation_read. destruct (answer_of U _); [right; eauto|apply IH].
Qed.

(** X17.  Each line that is no answer costs one more prompt and changes nothing
    else. *)
Theorem AskForConfirmation_asks_again U s (bad : list (string * option error)) reads :
  Forall (λ read, read.2 = None ∧ answer_of U read.1 = None) bad →
  AskForConfirmation U s (bad ++ reads)
  = ((replicate (List.length bad) (s +:+ " [y/n]: ") ++ (AskForConfirmation U s reads).1)%list,
     (AskForConfirmation U s reads).2).
Proof.
  induction 1 as [|[response err] bad [Herr Hans] _ IH].
  - cbn [app replicate List.length]. by destruct (AskForConfirmation U s reads).
  - cbn [fst snd] in *. subst err.
    change (((response, None) :: bad) ++ reads)%list
      with ((response, None) :: (bad ++ reads))%list.
    rewrite AskForConfirmation_read, Hans, IH. done.
Qed.

Lemma AskForConfirmation_asks_again_witness :
  let bad : list (string * option error) :=
    [("maybe" +:+ String newline "", None); (String newline "", None)] in
  (∀ U, Forall (λ read, read.2 = None ∧ answer_of U read.1 = None) bad)
  ∧ (∀ U, AskForConfirmation U "Overwrite?"
            (bad ++ [("no" +:+ String newline "", None)])%list
          = (["Overwrite? [y/n]: "; "Overwrite? [y/n]: "; "Overwrite? [y/n]: "],
             Some (false, None))).
Proof.
  intros bad.
  assert (∀ U, Forall (λ read, read.2 = None ∧ answer_of U read.1 = None) bad)
    as Hbad by (intros U; repeat constructor).
  split; [exact Hbad|]. intros U.
  rewrite (AskForConfirmation_asks_again U "Overwrite?" _
             [("no" +:+ String newline "", None)] (Hbad U)).
  reflexivity.
Defined.
End confirmation_facts.

(** ** Package utils: getAlias and RunInDocker *)

Section docker_facts.
Import strings text utils.
Context {Context Logger : Type}.
Implicit Types (U : unicode.tables) (sys : system Context) (ctx : Context) (lg : Logger).
Implicit Types (s t name current rest out command : string) (c : ascii).

(** X18.  [getAlias] returns an alias or an error, never both and never
    neither: the alias is empty exactly when the error is not nil, and the
    error is always "failed to get alias", whatever made the command fail. *)
Theorem getAlias_alias_or_error U sys ctx lg :
  let '(alias, err) := (getAlias U sys ctx lg).2 in
  (err = None ∧ alias ≠ "")
  ∨ (err = Some (errorString "failed to get alias") ∧ alias = "").
Proof.
  unfold getAlias. cbn zeta.
  repeat case_bool_decide; cbn; try (by right); try (by left).
  destruct (Output sys ctx _ _) as [out [err|]]; cbn; [by right|].
  repeat case_bool_decide; cbn; try (by right); by left.
Qed.

Lemma CountByte_app s t c : CountByte (s +:+ t) c = CountByte s c + CountByte t c.
Proof.
  induction s as [|a s IH]; [done|]. rewrite string_app_cons. cbn [CountByte].
  rewrite IH. lia.
Qed.

Lemma no_space_newline s : no_space s = true → CountByte s newline = 0.
Proof.
  induction s as [|a s IH]; [done|]. cbn [no_space CountByte].
  intros [Ha Hs]%andb_prop. rewrite IH by done. case_decide; [|done].
  subst a. done.
Qed.

Lemma trimLeftASCII_no_space s : s ≠ "" → no_space s = true → ∀ t, trimLeftASCII (s +:+ t) = s +:+ t.
Proof.
  destruct s as [|a s]; [done|]. intros _ [Ha _]%andb_prop t.
  rewrite string_app_cons. cbn [trimLeftASCII]. by destruct (asciiSpace a).
Qed.

Lemma trimRightASCII_no_space s : s ≠ "" → no_space s = true → trimRightASCII s = s.
Proof.
  induction s as [|a s IH]; [done|]. intros _ [Ha Hs]%andb_prop.
  cbn [trimRightASCII]. destruct s as [|b s].
  - cbn. by destruct (asciiSpace a).
  - rewrite IH by done. by rewrite bool_decide_eq_false_2.
Qed.

Lemma trimRightASCII_app_kept s t :
  t ≠ "" → trimRightASCII t = t → trimRightASCII (s +:+ t) = s +:+ t.
Proof.
  intros Ht Hns. induction s as [|a s IH].
  - by rewrite string_app_nil_l.
  - rewrite string_app_cons. cbn [trimRightASCII]. rewrite IH.
    rewrite bool_decide_eq_false_2; [done|]. by destruct s, t.
Qed.

(** The text before the first [c] keeps a prefix in which [c] does not
    occur. *)
Lemma Split_first_keeps s t c :
  CountByte s c = 0 → ∃ t', Split_first (s +:+ t) (String c "") = s +:+ t'.
Proof.
  unfold Split_first. induction s as [|a s IH]; cbn [CountByte].
  - intros _. rewrite string_app_nil_l. by eexists.
  - case_decide; [done|]. intros Hs. destruct (IH Hs) as (t' & Ht').
    exists t'. rewrite string_app_cons. cbn [Index HasPrefix].
    rewrite decide_False by done.
    destruct (Index (s +:+ t) (String c "")) as [i|]; cbn; by rewrite Ht'.
Qed.

(** X19.  With the format the command asks for, a context name, a tab and
    whether the context is the current one, the first line of the output
    is never the text "colima": the context is taken for the default one,
    be it named colima and current. *)
Theorem getAlias_format_never_colima U sys ctx lg name current rest :
  GOOS sys = "darwin" →
  Output sys ctx "docker" ["context"; "ls"; "--format"; "{{.Name}}" +:+ String tab "{{.Current}}"]
  = (name +:+ String tab current +:+ rest, None) →
  isASCII (name +:+ String tab current +:+ rest) = true →
  name ≠ "" → no_space name = true → current ≠ "" → no_space current = true →
  (getAlias U sys ctx lg).1
  = [OutputOf ctx "docker"
       ["context"; "ls"; "--format"; "{{.Name}}" +:+ String tab "{{.Current}}"];
     Logged lg InfoLevel
       "Starting keploy in docker with default context, as that is the current context." []]
  ∧ (getAlias U sys ctx lg).2.2 = None.
Proof.
  intros Hos Hout Hascii Hname Hns1 Hcur Hns2.
  assert (∃ t, Split_first (TrimSpace U (name +:+ String tab current +:+ rest))
                 (String newline "") = name +:+ String tab current +:+ t) as (t & Hfirst).
  { rewrite TrimSpace_ascii by done. rewrite trimLeftASCII_no_space by done.
    destruct (trimRightASCII_keeps (name +:+ String tab current) rest) as (t & Ht).
    { apply trimRightASCII_app_kept; [done|]. cbn [trimRightASCII].
      rewrite trimRightASCII_no_space by done.
      rewrite bool_decide_eq_false_2 by done. done. }
    rewrite !string_app_assoc in Ht. rewrite Ht.
    destruct (Split_first_keeps (name +:+ String tab current) t newline) as (t' & Ht').
    { rewrite CountByte_app. cbn [CountByte]. rewrite !no_space_newline by done.
      by rewrite decide_False. }
    rewrite !string_app_assoc in Ht'. eauto. }
  assert (∀ t, name +:+ String tab current +:+ t ≠ "colima") as Hnot.
  { intros t' He.
    assert (CountByte (name +:+ String tab current +:+ t') tab = 0) as Hc
      by (rewrite He; vm_compute; reflexivity).
    rewrite CountByte_app, string_app_cons in Hc. cbn [CountByte] in Hc.
    rewrite decide_True in Hc by done. lia. }
  assert (∃ t', Split_first (name +:+ String tab current +:+ t) (String newline "")
                = name +:+ String tab current +:+ t') as (t' & Hsecond).
  { destruct (Split_first_keeps (name +:+ String tab current) t newline) as (t' & Ht').
    { rewrite CountByte_app. cbn [CountByte]. rewrite !no_space_newline by done.
      by rewrite decide_False. }
    rewrite !string_app_assoc in Ht'. eauto. }
  unfold getAlias. cbn zeta. rewrite Hos.
  rewrite bool_decide_eq_false_2, bool_decide_eq_true_2 by done.
  unfold cmd_Output, mbind, proc_bind. cbn [fst snd]. rewrite Hout. cbn beta iota.
  rewrite Hfirst, Hsecond.
  rewrite bool_decide_eq_false_2 by (by destruct name).
  rewrite (bool_decide_eq_false_2 _ (Hnot t')). done.
Qed.

Lemma getAlias_runs_nothing U sys ctx lg : runs (getAlias U sys ctx lg).1 = [].
Proof.
  unfold getAlias, cmd_Output, mbind, proc_bind. cbn zeta.
  repeat case_bool_decide; try done. cbn [fst snd].
  destruct (Output sys ctx _ _) as [out [err|]]; [done|]. cbn beta iota.
  repeat case_bool_decide; done.
Qed.

(** X20.  [RunInDocker] starts the shell exactly when [getAlias] gave an alias,
    then once, with the alias, a space and the command as its command
    line, and returns what the shell returned; without an alias it starts
    nothing and returns the error of [getAlias]. *)
Theorem RunInDocker_shell U sys ctx lg command :
  let '(alias, failure) := (getAlias U sys ctx lg).2 in
  let '(evs, err) := RunInDocker U sys ctx lg command in
  match failure with
  | Some _ => runs evs = [] ∧ err = failure
  | None => runs evs = [(ctx, "sh", ["-c"; alias +:+ " " +:+ command])]
            ∧ err = Run sys ctx "sh" ["-c"; alias +:+ " " +:+ command]
  end.
Proof.
  pose proof (getAlias_runs_nothing U sys ctx lg) as Hruns.
  unfold RunInDocker, mbind, proc_bind.
  destruct (getAlias U sys ctx lg) as [evs [alias [failure|]]]; cbn [fst snd] in *.
  - unfold mret, proc_ret. cbn [fst snd]. by rewrite (right_id_L [] app).
  - unfold runs in *. rewrite !omap_app, Hruns. unfold cmd_Run. cbn [fst snd].
    by destruct (Run sys ctx _ _).
Qed.

(** X21.  Every failure of [RunInDocker] is reported on the logger at error
    level, except on a platform that is none of "linux", "darwin" and
    "Windows": there it fails without a line at error level. *)
Theorem RunInDocker_silent_failure U sys ctx lg command :
  let '(evs, err) := RunInDocker U sys ctx lg command in
  (err ≠ None ∧ error_lines evs = [])
  ↔ (GOOS sys ≠ "linux" ∧ GOOS sys ≠ "darwin" ∧ GOOS sys ≠ "Windows").
Proof.
  unfold RunInDocker, getAlias, cmd_Output, cmd_Run, mbind, proc_bind. cbn zeta.
  case_bool_decide as Hl; cbn.
  { destruct (Run sys ctx _ _); cbn; split; try (by intros [? ?]); by intros (? & _). }
  case_bool_decide as Hd.
  { cbn [fst snd]. destruct (Output sys ctx _ _) as [out [err|]]; cbn.
    - split; [by intros [? ?]|]. by intros (_ & ? & _).
    - repeat case_bool_decide; cbn; try destruct (Run sys ctx _ _); cbn;
        (split; [by intros [? ?]|]); by intros (_ & ? & _). }
  case_bool_decide as Hw; cbn.
  - split; [by intros [? ?]|]. by intros (_ & _ & ?).
  - done.
Qed.

End docker_facts.

Lemma getAlias_format_never_colima_witness :
  let out := "colima" +:+ String utils.tab "true"
              +:+ String utils.newline ("default" +:+ String utils.tab "false") in
  let sys := utils.mksystem "darwin" (λ _, "/Users/dev")
               (λ (_ : unit) _ _, (out, None)) (λ _ _ _, None) in
  text.isASCII out = true ∧ utils.no_space "colima" = true ∧ utils.no_space "true" = true
  ∧ ∀ U, (utils.getAlias U sys tt tt).1
         = [utils.OutputOf tt "docker"
              ["context"; "ls"; "--format"; "{{.Name}}" +:+ String utils.tab "{{.Current}}"];
            utils.Logged tt utils.InfoLevel
              "Starting keploy in docker with default context, as that is the current context."
              []].
Proof.
  intros out sys.
  assert (text.isASCII out = true) as Hascii by reflexivity.
  assert (utils.no_space "colima" = true) as Hname by reflexivity.
  assert (utils.no_space "true" = true) as Hcur by reflexivity.
  split; [exact Hascii|]. split; [exact Hname|]. split; [exact Hcur|]. intros U.
  apply (getAlias_format_never_colima U sys tt tt "colima" "true"
           (String utils.newline ("default" +:+ String utils.tab "false"))
           eq_refl eq_refl Hascii); done.
Defined.

(** ** Package utils: BindFlagsToViper *)

Section viper_facts.
Import strings text utils.
Context {Logger : Type}.
Implicit Types (U : unicode.tables) (lg : Logger) (flags : list visit).
Implicit Types (s t key env cmdName prefix : string) (c : ascii).

Lemma upper_byte c :
  let u := if byte_in "a" "z" c then ascii_of_N (N_of_ascii c - 32) else c in
  byte_in "a" "z" u = false ∧ (u = "."%char ↔ c = "."%char).
Proof. destruct c as [[] [] [] [] [] [] [] []]; vm_compute; split; try done; split; done. Qed.

Lemma upper_bytes_app s t : upper_bytes (s +:+ t) = upper_bytes s +:+ upper_bytes t.
Proof.
  induction s as [|c s IH]; [done|]. rewrite string_app_cons. cbn [upper_bytes].
  by rewrite IH.
Qed.

Lemma upper_bytes_length s : String.length (upper_bytes s) = String.length s.
Proof. induction s as [|c s IH]; [done|]. cbn [upper_bytes String.length]. by rewrite IH. Qed.

Lemma upper_bytes_twice s : upper_bytes (upper_bytes s) = upper_bytes s.
Proof.
  induction s as [|c s IH]; [done|]. cbn [upper_bytes].
  destruct (upper_byte c) as [-> _]. by rewrite IH.
Qed.

Lemma ToUpper_ascii U s : isASCII s = true → ToUpper U s = upper_bytes s.
Proof. unfold ToUpper. by intros ->. Qed.

Lemma ReplaceAll_byte_app s t c new :
  ReplaceAll_byte (s +:+ t) c new = ReplaceAll_byte s c new +:+ ReplaceAll_byte t c new.
Proof.
  induction s as [|a s IH]; [done|]. rewrite string_app_cons. cbn [ReplaceAll_byte].
  by rewrite IH, string_app_assoc.
Qed.

(** Replacing a byte by another byte: same length, the old byte is gone,
    and text already in upper case stays so when the new byte is no
    letter. *)
Lemma ReplaceAll_byte_one s c new :
  c ≠ new →
  String.length (ReplaceAll_byte s c (String new "")) = String.length s
  ∧ CountByte (ReplaceAll_byte s c (String new "")) c = 0
  ∧ (byte_in "a" "z" new = false → upper_bytes s = s →
     upper_bytes (ReplaceAll_byte s c (String new "")) = ReplaceAll_byte s c (String new "")).
Proof.
  intros Hne. induction s as [|a s (IH1 & IH2 & IH3)]; [done|].
  cbn [ReplaceAll_byte]. case_decide as Ha.
  - subst a. rewrite string_app_cons, string_app_nil_l. cbn [String.length CountByte upper_bytes].
    rewrite IH1, IH2, decide_False by done. split; [done|]. split; [done|].
    intros Hnew [= Hc Hs]. by rewrite Hnew, IH3.
  - rewrite string_app_cons, string_app_nil_l. cbn [String.length CountByte upper_bytes].
    rewrite IH1, IH2, decide_False by done. split; [done|]. split; [done|].
    intros Hnew [= Hc Hs]. by rewrite Hc, IH3.
Qed.

(** The name of the environment variable of a flag, from its key. *)
Lemma envVarName_of_key U prefix s :
  isASCII prefix = true → isASCII s = true →
  let key := prefix +:+ "." +:+ s in
  let env := ReplaceAll_byte (ToUpper U (prefix +:+ "_" +:+ s)) "." "_" in
  env = ReplaceAll_byte (upper_bytes key) "." "_"
  ∧ String.length env = String.length key
  ∧ CountByte env "." = 0
  ∧ upper_bytes env = env.
Proof.
  intros Hp Hs. cbn zeta.
  rewrite ToUpper_ascii by (by rewrite !isASCII_app, Hp, Hs).
  assert (ReplaceAll_byte (upper_bytes (prefix +:+ "_" +:+ s)) "." "_"
          = ReplaceAll_byte (upper_bytes (prefix +:+ "." +:+ s)) "." "_") as ->
    by (by rewrite !upper_bytes_app, !ReplaceAll_byte_app).
  destruct (ReplaceAll_byte_one (upper_bytes (prefix +:+ "." +:+ s)) "." "_")
    as (Hlen & Hdot & Hup); [done|].
  split; [done|]. split; [by rewrite Hlen, upper_bytes_length|]. split; [done|].
  apply Hup; [done|apply upper_bytes_twice].
Qed.

Lemma bound_flags_cons U lg cmdName prefix flag flags :
  let p := if bool_decide (prefix = "") then cmdName else prefix in
  bound_flags (BindFlagsToViper U lg cmdName prefix (flag :: flags))
  = (p +:+ "." +:+ flagName flag, flagName flag)
    :: bound_flags (BindFlagsToViper U lg cmdName p flags).
Proof.
  cbn [BindFlagsToViper]. cbn zeta. unfold bound_flags. rewrite !omap_app.
  by destruct (errBindPFlag flag), (errBindEnv flag).
Qed.

Lemma bound_envs_cons U lg cmdName prefix flag flags :
  let p := if bool_decide (prefix = "") then cmdName else prefix in
  bound_envs (BindFlagsToViper U lg cmdName prefix (flag :: flags))
  = (p +:+ "." +:+ flagName flag,
     ReplaceAll_byte (ToUpper U (p +:+ "_" +:+ flagName flag)) "." "_")
    :: bound_envs (BindFlagsToViper U lg cmdName p flags).
Proof.
  cbn [BindFlagsToViper]. cbn zeta. unfold bound_envs. rewrite !omap_app.
  by destruct (errBindPFlag flag), (errBindEnv flag).
Qed.

Lemma resolved_prefix cmdName prefix :
  let p := if bool_decide (prefix = "") then cmdName else prefix in
  (if bool_decide (p = "") then cmdName else p) = p.
Proof. cbn zeta. repeat case_bool_decide; congruence. Qed.

(** X22.  Whatever [viper.BindPFlag] and [viper.BindEnv] return, every flag
    visited is bound, in the order of the visit, and its environment
    variable too, both under the key made of the prefix, a dot and the
    name of the flag; the prefix is the one given or, if that is empty,
    the name of the command, for all the flags alike. *)
Theorem BindFlagsToViper_binds_every_flag U lg cmdName prefix flags :
  let p := if bool_decide (prefix = "") then cmdName else prefix in
  let calls := BindFlagsToViper U lg cmdName prefix flags in
  bound_flags calls = (λ flag, (p +:+ "." +:+ flagName flag, flagName flag)) <$> flags
  ∧ (bound_envs calls).*1 = (λ flag, p +:+ "." +:+ flagName flag) <$> flags.
Proof.
  cbn zeta. revert prefix. induction flags as [|flag flags IH]; intros prefix; [done|].
  rewrite bound_flags_cons, bound_envs_cons. cbn zeta.
  destruct (IH (if bool_decide (prefix = "") then cmdName else prefix)) as [IH1 IH2].
  rewrite resolved_prefix in IH1, IH2. rewrite IH1. cbn [fmap list_fmap fst].
  split; [done|]. f_equal. exact IH2.
Qed.

(** X23.  For ASCII names, the environment variable bound to a key is the key in
    upper case with every dot replaced by an underscore: it has the length
    of the key, no dot and no lower-case letter. *)
Theorem BindFlagsToViper_env_names U lg cmdName prefix flags :
  isASCII cmdName = true → isASCII prefix = true →
  Forall (λ flag, isASCII (flagName flag) = true) flags →
  Forall (λ bound, bound.2 = ReplaceAll_byte (upper_bytes bound.1) "." "_"
                   ∧ String.length bound.2 = String.length bound.1
                   ∧ CountByte bound.2 "." = 0
                   ∧ upper_bytes bound.2 = bound.2)
    (bound_envs (BindFlagsToViper U lg cmdName prefix flags)).
Proof.
  intros Hcmd Hp Hflags. revert prefix Hp.
  induction Hflags as [|flag flags Hflag _ IH]; intros prefix Hp; [constructor|].
  rewrite bound_envs_cons. cbn zeta.
  assert (isASCII (if bool_decide (prefix = "") then cmdName else prefix) = true) as Hp'
    by (by case_bool_decide).
  constructor; [|by apply IH].
  cbn [fst snd]. by apply envVarName_of_key.
Qed.

End viper_facts.

Lemma BindFlagsToViper_env_names_witness :
  let flags := [utils.mkvisit "api-timeout" None None;
                utils.mkvisit "config.path" (Some (errorString "flag is nil")) None] in
  text.isASCII "test" = true ∧ text.isASCII "" = true
  ∧ Forall (λ flag, text.isASCII (utils.flagName flag) = true) flags
  ∧ ∀ U, Forall (λ bound, bound.2 = text.ReplaceAll_byte (text.upper_bytes bound.1) "." "_"
                          ∧ String.length bound.2 = String.length bound.1
                          ∧ strings.CountByte bound.2 "." = 0
                          ∧ text.upper_bytes bound.2 = bound.2)
           (utils.bound_envs (utils.BindFlagsToViper U tt "test" "" flags)).
Proof.
  intros flags.
  assert (text.isASCII "test" = true) as Hcmd by reflexivity.
  assert (text.isASCII "" = true) as Hp by reflexivity.
  assert (Forall (λ flag, text.isASCII (utils.flagName flag) = true) flags) as Hflags
    by (repeat constructor).
  split; [exact Hcmd|]. split; [exact Hp|]. split; [exact Hflags|]. intros U.
  exact (BindFlagsToViper_env_names U tt "test" "" flags Hcmd Hp Hflags).
Defined.
